(** * telegram-music-bot: a shallow embedding of [bot.js]

    The bot relays Spotify track links sent by guests to a voting chat and
    appends approved tracks to a Spotify playback queue.  This development
    embeds the pure helpers of [bot.js] ([spotifyUrlToUri], [formatUser],
    [formatTrackInfo], [isVotingGroup]), the Spotify credential globals with
    [getSpotify] / [refreshSpotifyToken], and the update handlers registered
    on the bot, and states the properties of the request workflow over them.

    [bot.js] holds the text of the program twice: the current revision and,
    after it, an earlier one without expiry tracking, in which both vote
    handlers delete the vote message.  The embedding follows the current
    revision.

    Conventions.
    - A JavaScript string is a [string]; non-ASCII text is its UTF-8 bytes.
      The regular expressions of the program are ASCII only and [\w] (without
      the [u] flag) is [[A-Za-z0-9_]], so every byte of a non-ASCII character
      is a non-word character, as its UTF-16 code units are in JavaScript.
    - Times are milliseconds since the epoch ([Date.now()]), in [Z].
    - A promise-returning call to a collaborator (Spotify, Telegram, storage)
      is recorded in a log of [call]s; its outcome is an argument of the
      continuation that the program passes to [then] / [await]. *)

From Stdlib Require Import ZArith Ascii String List Bool Lia.
From stdpp Require Import base option list strings pretty gmap fin_maps.
Import ListNotations.

Local Open Scope Z_scope.

(** ** JavaScript values that reach the string helpers *)

(** [ctx.message.text] is a string for a text message and [undefined] for
    any other kind of message (photo, sticker, ...). *)
Inductive jsval : Type :=
| undefined
| null
| str (s : string).

(** JavaScript truthiness on these values: [undefined], [null] and the empty
    string are falsy. *)
Definition truthy (v : jsval) : bool :=
  match v with
  | undefined | null => false
  | str s => negb (String.eqb s "")
  end.

(** ** Link parser *)

Module Parser.

(** [\w] of a JavaScript regular expression without the [u] flag. *)
Definition is_word (c : ascii) : bool :=
  let n := nat_of_ascii c in
  ((48 <=? n) && (n <=? 57) || (65 <=? n) && (n <=? 90)
   || (97 <=? n) && (n <=? 122) || (n =? 95))%nat.

(** The longest prefix of word characters, and what follows it: the greedy
    [\w*] at the end of a pattern. *)
Fixpoint span_word (s : string) : string * string :=
  match s with
  | String c s' =>
      if is_word c then let '(w, r) := span_word s' in (String c w, r)
      else (EmptyString, s)
  | EmptyString => (EmptyString, EmptyString)
  end.

(** Matching a literal at the head of the subject. *)
Fixpoint strip_prefix (p s : string) : option string :=
  match p, s with
  | EmptyString, _ => Some s
  | String a p', String b s' =>
      if Ascii.eqb a b then strip_prefix p' s' else None
  | String _ _, EmptyString => None
  end.

(** [(\w+)] at the end of a pattern: the capture is the longest run of word
    characters, which must not be empty. *)
Definition capture_word (s : string) : option string :=
  match fst (span_word s) with
  | EmptyString => None
  | w => Some w
  end.

(** [:\/\/open\.spotify\.com\/track\/(\w+)] at the head of the subject. *)
Definition match_host (s : string) : option string :=
  match strip_prefix "://open.spotify.com/track/" s with
  | Some t => capture_word t
  | None => None
  end.

(** [/https?:\/\/open\.spotify\.com\/track\/(\w+)/] tried at the head of the
    subject; the result is capture group 1.  [s?] is greedy: the branch that
    consumes the [s] is tried first. *)
Definition match_here (s : string) : option string :=
  match strip_prefix "http" s with
  | Some r =>
      match (match strip_prefix "s" r with
             | Some r' => match_host r'
             | None => None
             end) with
      | Some w => Some w
      | None => match_host r
      end
  | None => None
  end.

(** [url.match(regex)] for a regex without the [g] flag: the leftmost
    position at which the pattern matches. *)
Fixpoint regex_search (s : string) : option string :=
  match match_here s with
  | Some w => Some w
  | None =>
      match s with
      | String _ s' => regex_search s'
      | EmptyString => None
      end
  end.

(** [function spotifyUrlToUri(url)]; [None] is [undefined]. *)
Definition spotifyUrlToUri (url : jsval) : option string :=
  match url with
  | str s =>
      if truthy url then
        match regex_search s with
        | Some id => Some ("spotify:track:" +:+ id)
        | None => None
        end
      else None
  | _ => None
  end.

(** [/^accept:(spotify:track:\w+)/] on callback data: capture group 1. *)
Definition match_accept (data : string) : option string :=
  match strip_prefix "accept:" data with
  | Some r =>
      match strip_prefix "spotify:track:" r with
      | Some t =>
          match capture_word t with
          | Some w => Some ("spotify:track:" +:+ w)
          | None => None
          end
      | None => None
      end
  | None => None
  end.

(** [uri.match(/spotify:track:(\w+)/)] in [resolveTrack]: capture group 1 of
    the leftmost match. *)
Definition match_track_here (s : string) : option string :=
  match strip_prefix "spotify:track:" s with
  | Some t => capture_word t
  | None => None
  end.

Fixpoint match_track (s : string) : option string :=
  match match_track_here s with
  | Some w => Some w
  | None =>
      match s with
      | String _ s' => match_track s'
      | EmptyString => None
      end
  end.

End Parser.

(** ** Settings and small helpers *)

Module Config.
Definition votingGroup : string := "-1002454626909".
Definition votingGroupThread : string := "637".
Definition admins : list string := ["117441870"].
Definition deleteMessageAfterAcceptDecline : bool := false.
End Config.

(** [String(id)] for a numeric Telegram identifier, an integer far below
    [2^53]: its decimal notation. *)
Definition String_of_id (id : Z) : string := pretty id.

(** [function isAdmin(id)]: [admins.includes(String(id))]. *)
Definition isAdmin (id : Z) : bool :=
  existsb (String.eqb (String_of_id id)) Config.admins.

(** [function isVotingGroup(id)]: [String(id) == String(votingGroup)]. *)
Definition isVotingGroup (id : Z) : bool :=
  String.eqb (String_of_id id) Config.votingGroup.

(** A Telegram user as the handlers read it: [id], [first_name] and the
    optional [username]. *)
Record user : Type := {
  user_id : Z;
  first_name : string;
  username : option string
}.

(** [function formatUser(user)]: the handle is shown when [user.username]
    is truthy. *)
Definition formatUser (u : user) : string :=
  match username u with
  | Some h =>
      if truthy (str h) then first_name u +:+ " (@" +:+ h +:+ ")"
      else first_name u
  | None => first_name u
  end.

(** The body of a [getTrack] response, as far as the bot reads it. *)
Record track : Type := {
  track_name : string;
  track_artists : list string;
  track_url : string
}.

(** [Array.prototype.join]. *)
Fixpoint join (sep : string) (l : list string) : string :=
  match l with
  | [] => ""
  | [x] => x
  | x :: l' => x +:+ sep +:+ join sep l'
  end.

(** [function formatTrackInfo(trackInfo)]: the pair of [name] and
    [artists]. *)
Definition formatTrackInfo (t : track) : string * string :=
  (track_name t, join ", " (track_artists t)).

(** A value interpolated in a template literal. *)
Definition template (v : jsval) : string :=
  match v with
  | undefined => "undefined"
  | null => "null"
  | str s => s
  end.

(** ** Calls to the collaborators *)

(** The inline keyboard that the bot attaches to a request: the callback
    data of its two buttons and the target of the URL button (the captions
    of the buttons are left out). *)
Record keyboard : Type := {
  accept_data : string;
  decline_data : string;
  url_button : string
}.

Inductive call : Type :=
| Reply (chat : Z) (text : string)
| SendMessage (chat : string) (thread : option string) (text : string)
    (markup : keyboard)
| EditMessageText (chat message : Z) (text : string)
| EditMessageReplyMarkup (chat message : Z) (markup : option keyboard)
| DeleteMessage (chat message : Z)
| GetTrack (id : string) (access_token : option string)
| AddToQueue (uri : string) (access_token : option string)
| RefreshAccessToken (refresh_token : option string)
| AuthorizationCodeGrant (code : option string).

(** How a handler ends: it returns, or a rejected promise leaves it
    without having been caught. *)
Inductive failure : Type := LookupRejected | QueueRejected.

Inductive completion : Type :=
| Returned
| Uncaught (f : failure).

(** The outcome of a promise. *)
Inductive outcome (A : Type) : Type :=
| Fulfilled (a : A)
| Rejected.
Arguments Fulfilled {A} a.
Arguments Rejected {A}.

(** ** Program state *)

(** The Spotify globals of [bot.js] together with the two credentials held
    by the [spotifyApi] object. *)
Record spotify : Type := {
  api_access : option string;
  api_refresh : option string;
  spotifyRefreshToken : option string;
  spotifyAccessToken : option string;
  spotifyTokenExpires : Z
}.

Record state : Type := {
  sp : spotify;
  storage : gmap string string;
  windows : gmap Z (list Z);
  log : list call
}.

Definition with_sp (f : spotify → spotify) (st : state) : state :=
  {| sp := f (sp st); storage := storage st; windows := windows st;
     log := log st |}.

Definition with_storage (f : gmap string string → gmap string string)
    (st : state) : state :=
  {| sp := sp st; storage := f (storage st); windows := windows st;
     log := log st |}.

Definition with_windows (w : gmap Z (list Z)) (st : state) : state :=
  {| sp := sp st; storage := storage st; windows := w; log := log st |}.

(** Issue a call: it is appended to the log. *)
Definition emit (c : call) (st : state) : state :=
  {| sp := sp st; storage := storage st; windows := windows st;
     log := log st ++ [c] |}.

(** ** Token handling *)

Module Token.

Definition setAccessToken (a : option string) (s : spotify) : spotify :=
  {| api_access := a; api_refresh := api_refresh s;
     spotifyRefreshToken := spotifyRefreshToken s;
     spotifyAccessToken := spotifyAccessToken s;
     spotifyTokenExpires := spotifyTokenExpires s |}.

Definition setRefreshToken (r : option string) (s : spotify) : spotify :=
  {| api_access := api_access s; api_refresh := r;
     spotifyRefreshToken := spotifyRefreshToken s;
     spotifyAccessToken := spotifyAccessToken s;
     spotifyTokenExpires := spotifyTokenExpires s |}.

Definition setExpires (t : Z) (s : spotify) : spotify :=
  {| api_access := api_access s; api_refresh := api_refresh s;
     spotifyRefreshToken := spotifyRefreshToken s;
     spotifyAccessToken := spotifyAccessToken s;
     spotifyTokenExpires := t |}.

(** [function refreshSpotifyToken(refreshToken, accessToken, force)], up to
    the point where [refreshAccessToken()] has been sent; the two
    continuations of its promise are [refreshed] and [refresh_failed]. *)
Definition refreshSpotifyToken (now : Z) (refreshToken accessToken : option string)
    (force : bool) (st : state) : state :=
  if (spotifyTokenExpires (sp st) <=? now) || force then
    emit (RefreshAccessToken refreshToken)
      (with_sp (setAccessToken accessToken)
         (with_sp (setRefreshToken refreshToken) st))
  else st.

(** The fulfilment continuation: [data.body['access_token']] and
    [data.body['expires_in']] (seconds). *)
Definition refreshed (now : Z) (access_token : string) (expires_in : Z)
    (st : state) : state :=
  with_sp (setExpires (now + expires_in * 1000))
    (with_sp (setAccessToken (Some access_token)) st).

(** The rejection continuation only writes to the console. *)
Definition refresh_failed (st : state) : state := st.

(** [function getSpotify(refresh = true)].  [spotifyApi] is assigned once at
    start-up and never [undefined] afterwards; the object that is returned
    is the shared [spotifyApi], whose access token is [api_access] of the
    resulting state. *)
Definition getSpotify (now : Z) (refresh : bool) (st : state) : state :=
  if refresh then
    refreshSpotifyToken now (spotifyRefreshToken (sp st))
      (spotifyAccessToken (sp st)) false st
  else st.

(** Module initialisation: [spotifyTokenExpires = Date.now()] at [t0], the
    cached pair read from storage, and the first refresh at [t1] when both
    are present. *)
Definition startup (t0 t1 : Z) (disk : gmap string string) : state :=
  let r := disk !! "spotify_refresh_token" in
  let a := disk !! "spotify_access_token" in
  let st := {| sp := {| api_access := None; api_refresh := None;
                        spotifyRefreshToken := r; spotifyAccessToken := a;
                        spotifyTokenExpires := t0 |};
               storage := disk; windows := ∅; log := [] |} in
  match r, a with
  | Some _, Some _ => refreshSpotifyToken t1 r a false st
  | _, _ => st
  end.

(** The response of the authorization-code grant. *)
Record grant : Type := {
  access_token : string;
  refresh_token : string;
  expires_in : Z
}.

(** [bot.command('spotifytoken', ...)]: the handler sends the grant request
    for [ctx.args[0]] when the sender is an admin. *)
Definition spotifytoken (chat : Z) (sender : Z) (code : option string)
    (st : state) : state :=
  if isAdmin sender then emit (AuthorizationCodeGrant code) st else st.

(** The fulfilment continuation of the grant. *)
Definition authorized (chat : Z) (g : grant) (st : state) : state :=
  let st := emit (Reply chat ("Authorized. The token expires in "
                              +:+ pretty (expires_in g))) st in
  let st := with_sp (setAccessToken (Some (access_token g))) st in
  let st := with_sp (setRefreshToken (Some (refresh_token g))) st in
  let st := with_storage (<["spotify_refresh_token" := refresh_token g]>) st in
  let st := with_storage (<["spotify_access_token" := access_token g]>) st in
  emit (Reply chat "Login finished and saved") st.

(** The rejection continuation of the grant. *)
Definition authorization_failed (chat : Z) (st : state) : state :=
  emit (Reply chat "Something went wrong!") st.

End Token.

(** ** Rate limiter *)

Module RateLimit.

(** The options object passed to [rateLimit]: [window] in milliseconds and
    [limit]; [keyGenerator] and [onLimitExceeded] are given with the route
    that installs the limiter. *)
Record config : Type := {
  window : Z;
  limit : nat
}.

(** [const trackLimitConfig]: [window: 5 * 60 * 1000], [limit: 3]. *)
Definition trackLimitConfig : config :=
  {| window := 5 * 60 * 1000; limit := 3 |}.

(** The text of [onLimitExceeded] in [trackLimitConfig]. *)
Definition limit_reply : string := "Limit überschritten, bitte warten!".

(** Modelled from the spec: the pruning step of the [rateLimit] middleware,
    which [bot.js] imports from the package [telegraf-ratelimit] and whose
    code is not among the sources.  The specification (section 4.3) has each
    call prune the timestamps older than [now - W] from the caller's
    window. *)
Definition prune (W now : Z) (ts : list Z) : list Z :=
  List.filter (fun t => now - W <=? t) ts.

(** Modelled from the spec: the decision of the [rateLimit] middleware,
    whose code is not among the sources.  The specification (section 4.3)
    gives it as a sliding window with per-user state: after the pruning the
    call tests whether fewer than [N] timestamps remain; if so it records
    [now] and allows, otherwise it denies without recording.

    [bot.js] installs the middleware twice: as [rateLimit(trackLimitConfig)]
    on the message route, which is the instance modelled here, and before
    that as [bot.use(rateLimit())] with the options that the package
    defaults to, which neither the sources nor the specification give.  The
    handlers below are modelled from the point where that first instance
    has passed the update on; [Pipeline.receive] puts it in front of
    them. *)
Definition allow (cfg : config) (key now : Z) (w : gmap Z (list Z))
    : bool * gmap Z (list Z) :=
  let ts := prune (window cfg) now (default [] (w !! key)) in
  if (length ts <? limit cfg)%nat
  then (true, <[key := ts ++ [now]]> w)
  else (false, <[key := ts]> w).

(** A sequence of calls [(key, now)] run one after the other: the decision
    of each call and the final windows. *)
Fixpoint run (cfg : config) (calls : list (Z * Z)) (w : gmap Z (list Z))
    : list bool * gmap Z (list Z) :=
  match calls with
  | [] => ([], w)
  | (key, now) :: calls' =>
      let '(b, w') := allow cfg key now w in
      let '(bs, w'') := run cfg calls' w' in
      (b :: bs, w'')
  end.

(** The times of the calls of [key] that were allowed. *)
Fixpoint allowed_times (key : Z) (calls : list (Z * Z)) (bs : list bool)
    : list Z :=
  match calls, bs with
  | (k, t) :: calls', b :: bs' =>
      if b && (k =? key) then t :: allowed_times key calls' bs'
      else allowed_times key calls' bs'
  | _, _ => []
  end.

(** How many of the times [ts] lie in the window [[s, s + W]]. *)
Definition count_within (W s : Z) (ts : list Z) : nat :=
  length (List.filter (fun t => (s <=? t) && (t <=? s + W)) ts).

(** Call times never decrease. *)
Fixpoint monotone (last : Z) (calls : list (Z * Z)) : Prop :=
  match calls with
  | [] => True
  | (_, t) :: calls' => last <= t /\ monotone t calls'
  end.

End RateLimit.

(** ** Request workflow *)

Module Workflow.

(** An inbound chat message: [ctx.chat.id], [ctx.message.from] and
    [ctx.message.text]. *)
Record message : Type := {
  chat_id : Z;
  sender : user;
  text : jsval
}.

(** A button tap: the chat and message that carry the keyboard, the voter
    ([ctx.update.callback_query.from]), the callback data of the button and
    [ctx.text], the text of the message at the time of the tap. *)
Record callback : Type := {
  cb_chat : Z;
  cb_message : Z;
  voter : user;
  data : string;
  cb_text : jsval
}.

Definition help_reply : string :=
  "Keine gültige Spotify-URL. Sende /help für Hilfe.".

(** [async function resolveTrack(uri)] up to the [getTrack] request:
    [None] when the URI does not match (the function returns [undefined]),
    else the state after [getSpotify().getTrack(trackId)] was sent. *)
Definition resolveTrack (now : Z) (uri : string) (st : state) : option state :=
  match Parser.match_track uri with
  | None => None
  | Some trackId =>
      let st := Token.getSpotify now true st in
      Some (emit (GetTrack trackId (api_access (sp st))) st)
  end.

(** [function addToSpotifyQueue(uri)]: [getSpotify().addToQueue(uri)]. *)
Definition addToSpotifyQueue (now : Z) (uri : string) (st : state) : state :=
  let st := Token.getSpotify now true st in
  emit (AddToQueue uri (api_access (sp st))) st.

(** The vote message and its keyboard, as [bot.telegram.sendMessage] gets
    them in the message handler. *)
Definition vote_message (requester : user) (uri : string) (t : track) : call :=
  let '(name, artists) := formatTrackInfo t in
  SendMessage Config.votingGroup
    (if truthy (str Config.votingGroupThread)
     then Some Config.votingGroupThread else None)
    ("Anfrage von " +:+ formatUser requester +:+ String "010" ""
       +:+ name +:+ " • " +:+ artists)
    {| accept_data := "accept:" +:+ uri;
       decline_data := "decline";
       url_button := track_url t |}.

(** The handler of [bot.on('message', ...)], after the limiter has passed
    the update on.  [lookup] is the outcome of the [getTrack] request. *)
Definition handle_message (now : Z) (m : message) (lookup : outcome track)
    (st : state) : state * completion :=
  if isVotingGroup (chat_id m) then (st, Returned)
  else
    match Parser.spotifyUrlToUri (text m) with
    | None => (emit (Reply (chat_id m) help_reply) st, Returned)
    | Some spotifyUri =>
        match resolveTrack now spotifyUri st with
        | None =>
            (* [formatTrackInfo(undefined)] throws a [TypeError] *)
            (st, Uncaught LookupRejected)
        | Some st =>
            match lookup with
            | Rejected => (st, Uncaught LookupRejected)
            | Fulfilled trackInfo =>
                let '(name, artists) := formatTrackInfo trackInfo in
                let st := emit (vote_message (sender m) spotifyUri trackInfo) st in
                (emit (Reply (chat_id m)
                         (name +:+ " von " +:+ artists +:+ " wurde angefragt."))
                   st, Returned)
            end
        end
    end.

(** [bot.on('message', rateLimit(trackLimitConfig), handler)]: the limiter
    keyed by [ctx.from.id] runs first; on denial [onLimitExceeded] replies
    and the handler is not called. *)
Definition on_message (now : Z) (m : message) (lookup : outcome track)
    (st : state) : state * completion :=
  let '(ok, w) := RateLimit.allow RateLimit.trackLimitConfig
                    (user_id (sender m)) now (windows st) in
  let st := with_windows w st in
  if ok then handle_message now m lookup st
  else (emit (Reply (chat_id m) RateLimit.limit_reply) st, Returned).

(** What both vote handlers do to the vote message once they are done: the
    [if (deleteMessageAfterAcceptDecline) ... else ...] block, which stands
    with the same text in the approve and in the decline handler. *)
Definition close_vote (cb : callback) (st : state) : state :=
  if Config.deleteMessageAfterAcceptDecline then
    emit (DeleteMessage (cb_chat cb) (cb_message cb)) st
  else
    let st := emit (EditMessageText (cb_chat cb) (cb_message cb)
                      ("Von " +:+ formatUser (voter cb) +:+ " abgelehnt: "
                         +:+ template (cb_text cb))) st in
    emit (EditMessageReplyMarkup (cb_chat cb) (cb_message cb) None) st.

(** [bot.action(/^accept:(spotify:track:\w+)/, ...)].  The handler runs when
    the callback data matches; [now] is the time of the tap and [now'] the
    time at which the promise of [addToQueue] is fulfilled.  [queued] and
    [lookup] are the outcomes of [addToQueue] and of [getTrack]. *)
Definition on_accept (now now' : Z) (cb : callback) (queued : outcome unit)
    (lookup : outcome track) (st : state) : state * completion :=
  match Parser.match_accept (data cb) with
  | None => (st, Returned)
  | Some uri =>
      let st := addToSpotifyQueue now uri st in
      match queued with
      | Rejected => (st, Uncaught QueueRejected)
      | Fulfilled _ =>
          match resolveTrack now' uri st with
          | None =>
              let st := emit (Reply (cb_chat cb)
                                ("Lied zur Queue hinzugefügt: " +:+ uri)) st in
              (close_vote cb st, Returned)
          | Some st =>
              match lookup with
              | Rejected => (st, Uncaught LookupRejected)
              | Fulfilled t =>
                  let '(name, artists) := formatTrackInfo t in
                  let st := emit (Reply (cb_chat cb)
                                    ("Lied zur Queue hinzugefügt: "
                                       +:+ name +:+ " • " +:+ artists)) st in
                  (close_vote cb st, Returned)
              end
          end
      end
  end.

(** [bot.action('decline', ...)]: runs when the callback data is exactly
    [decline]. *)
Definition on_decline (cb : callback) (st : state) : state * completion :=
  if String.eqb (data cb) "decline" then (close_vote cb st, Returned)
  else (st, Returned).

(** A vote event as the transport delivers it. *)
Inductive vote : Type :=
| Accept (now now' : Z) (cb : callback) (queued : outcome unit)
    (lookup : outcome track)
| Decline (cb : callback).

Definition on_vote (v : vote) (st : state) : state * completion :=
  match v with
  | Accept now now' cb queued lookup => on_accept now now' cb queued lookup st
  | Decline cb => on_decline cb st
  end.


(** Vote events handled one after the other. *)
Fixpoint on_votes (vs : list vote) (st : state) : state :=
  match vs with
  | [] => st
  | v :: vs' => on_votes vs' (fst (on_vote v st))
  end.

(** An approve event: its callback data matches the approve pattern. *)
Definition is_accept (v : vote) : bool :=
  match v with
  | Accept _ _ cb _ _ =>
      match Parser.match_accept (data cb) with
      | Some _ => true
      | None => false
      end
  | Decline _ => false
  end.


(** Observations on the log. *)
Definition is_addToQueue (c : call) : bool :=
  match c with AddToQueue _ _ => true | _ => false end.

Definition is_getTrack (c : call) : bool :=
  match c with GetTrack _ _ => true | _ => false end.

Definition is_sendMessage (c : call) : bool :=
  match c with SendMessage _ _ _ _ => true | _ => false end.

Definition is_reply (c : call) : bool :=
  match c with Reply _ _ => true | _ => false end.

Definition count (p : call → bool) (l : list call) : nat :=
  length (List.filter p l).

(** The calls issued between the states [st] and [st']. *)
Definition new_calls (st st' : state) : list call :=
  drop (length (log st)) (log st').

(** What [getSpotify] may send: nothing, or the refresh request. *)
Definition refresh_only (l : list call) : Prop :=
  l = [] ∨ ∃ r, l = [RefreshAccessToken r].

(** The calls of the approve handler, in order: the queue request, then
    after its fulfilment the lookup, then after the fulfilment of the lookup
    the confirmation and the rewriting of the vote message; each request to
    Spotify may be preceded by a refresh request. *)
Definition accept_calls (cb : callback) (uri id : string)
    (l1 l2 : list call) (tok1 tok2 : option string)
    (queued : outcome unit) (lookup : outcome track) : list call :=
  l1 ++ AddToQueue uri tok1 ::
    match queued with
    | Rejected => []
    | Fulfilled _ =>
        l2 ++ GetTrack id tok2 ::
          match lookup with
          | Rejected => []
          | Fulfilled t =>
              [Reply (cb_chat cb)
                 ("Lied zur Queue hinzugefügt: " +:+ track_name t
                    +:+ " • " +:+ join ", " (track_artists t));
               EditMessageText (cb_chat cb) (cb_message cb)
                 ("Von " +:+ formatUser (voter cb) +:+ " abgelehnt: "
                    +:+ template (cb_text cb));
               EditMessageReplyMarkup (cb_chat cb) (cb_message cb) None]
          end
    end.

(** The keyboard that a call attaches to a new message. *)
Definition keyboard_of (c : call) : option keyboard :=
  match c with
  | SendMessage _ _ _ k => Some k
  | _ => None
  end.

End Workflow.

(** ** What the link parser is specified against *)

Module UrlSpec.

Fixpoint all_word (s : string) : bool :=
  match s with
  | String c s' => Parser.is_word c && all_word s'
  | EmptyString => true
  end.

(** An identifier: one or more identifier characters. *)
Definition word_id (id : string) : Prop :=
  id ≠ "" ∧ all_word id = true.

(** What may follow the identifier: nothing, or text that starts with a
    character that is not an identifier character, such as the [?] of a
    query string. *)
Definition ends_id (rest : string) : bool :=
  match rest with
  | String c _ => negb (Parser.is_word c)
  | EmptyString => true
  end.

Definition web_scheme (scheme : string) : Prop :=
  scheme = "http" ∨ scheme = "https".

(** The web URL of a track. *)
Definition track_url (scheme id : string) : string :=
  scheme +:+ "://open.spotify.com/track/" +:+ id.

(** [s] starts with the web URL of the track [id]. *)
Definition url_at (s id : string) : Prop :=
  ∃ scheme rest, web_scheme scheme ∧ word_id id ∧ ends_id rest = true
                 ∧ s = track_url scheme id +:+ rest.

(** [s] contains the web URL of some track. *)
Definition contains_url (s : string) : Prop :=
  ∃ pre suf id, s = pre +:+ suf ∧ url_at suf id.

(** No track URL starts within the first [n] characters of [s]. *)
Definition no_url_before (n : nat) (s : string) : Prop :=
  ∀ pre suf id, s = pre +:+ suf → (String.length pre < n)%nat → ¬ url_at suf id.

(** The executable form of [no_url_before]: the pattern matches at none of
    the first [n] positions. *)
Fixpoint no_match_before (n : nat) (s : string) : bool :=
  match n with
  | O => true
  | S n' =>
      match Parser.match_here s with
      | Some _ => false
      | None =>
          match s with
          | String _ s' => no_match_before n' s'
          | EmptyString => true
          end
      end
  end.

End UrlSpec.

(** ** Commands *)

Module Commands.

(** [const helpText]: three lines, the second followed by an empty one. *)
Definition helpText : string :=
  "Sende eine Spotify-URL, um einen Musikwunsch zu stellen."
    +:+ String "010" ""
    +:+ "Dies geht direkt in der Spotify-App über *Teilen* > *Link teilen*."
    +:+ String "010" (String "010" "")
    +:+ "Beispiel: https://open.spotify.com/track/5hvIZF56tE8sAwMA9cKmQQ?si=8e4ab90fe2654448".

(** [bot.start] and [bot.help]: both reply with [helpText]. *)
Definition help (chat : Z) (st : state) : state :=
  emit (Reply chat helpText) st.

(** [bot.command('spotifylogin', ...)]; [authorizeURL] is what
    [spotifyApi.createAuthorizeURL(scopes, 'not-random-state')] returns. *)
Definition spotifylogin (chat sender : Z) (authorizeURL : string)
    (st : state) : state :=
  if isAdmin sender then
    emit (Reply chat ("Error: SPOTIFY_CODE not set. Visit " +:+ authorizeURL)) st
  else st.

(** [bot.command("id", ...)]: an admin is told [ctx.chat.id]. *)
Definition id (chat sender : Z) (st : state) : state :=
  if isAdmin sender then emit (Reply chat (String_of_id chat)) st else st.

End Commands.

(** ** The bot as a whole *)

Module Bot.

(** What can happen after start-up: an update reaches one of the handlers,
    or a promise that a handler left behind is settled. *)
Inductive event : Type :=
| Message (now : Z) (m : Workflow.message) (lookup : outcome track)
| Vote (v : Workflow.vote)
| Help (chat : Z)
| SpotifyLogin (chat sender : Z) (authorizeURL : string)
| SpotifyToken (chat sender : Z) (code : option string)
| Authorized (chat : Z) (g : Token.grant)
| AuthorizationFailed (chat : Z)
| Id (chat sender : Z)
| Refreshed (now : Z) (access_token : string) (expires_in : Z)
| RefreshFailed.

Definition step (e : event) (st : state) : state :=
  match e with
  | Message now m lookup => fst (Workflow.on_message now m lookup st)
  | Vote v => fst (Workflow.on_vote v st)
  | Help chat => Commands.help chat st
  | SpotifyLogin chat sender url => Commands.spotifylogin chat sender url st
  | SpotifyToken chat sender code => Token.spotifytoken chat sender code st
  | Authorized chat g => Token.authorized chat g st
  | AuthorizationFailed chat => Token.authorization_failed chat st
  | Id chat sender => Commands.id chat sender st
  | Refreshed now a e => Token.refreshed now a e st
  | RefreshFailed => Token.refresh_failed st
  end.

Fixpoint run (es : list event) (st : state) : state :=
  match es with
  | [] => st
  | e :: es' => run es' (step e st)
  end.

Definition is_authorized (e : event) : bool :=
  match e with Authorized _ _ => true | _ => false end.

Definition is_message (e : event) : bool :=
  match e with Message _ _ _ => true | _ => false end.

Definition is_refreshed (e : event) : bool :=
  match e with Refreshed _ _ _ => true | _ => false end.

Definition is_accept (e : event) : bool :=
  match e with Vote v => Workflow.is_accept v | _ => false end.

(** What [getSpotify] sends in a state whose cached refresh token is [r0]:
    nothing, or the refresh request for [r0]. *)
Definition cached_refresh (r0 : option string) (l : list call) : Prop :=
  l = [] ∨ l = [RefreshAccessToken r0].

(** A call that is no refresh request, or the refresh request for [r0]. *)
Definition refreshes_only (r0 : option string) (c : call) : Prop :=
  ∀ r, c = RefreshAccessToken r → r = r0.

(** A call that is no queue request, or a queue request for a track URI. *)
Definition queues_track_uri (c : call) : Prop :=
  ∀ uri tok, c = AddToQueue uri tok →
             ∃ w, UrlSpec.word_id w ∧ uri = "spotify:track:" +:+ w.

(** [st'] comes from [st] by issuing the calls [l] and leaving the cached
    pair and the store alone. *)
Definition frame (st st' : state) (l : list call) : Prop :=
  log st' = log st ++ l
  ∧ spotifyRefreshToken (sp st') = spotifyRefreshToken (sp st)
  ∧ spotifyAccessToken (sp st') = spotifyAccessToken (sp st)
  ∧ storage st' = storage st.

(** The calls of the message handler for a request whose lookup is sent. *)
Definition request_calls (m : Workflow.message) (uri id : string)
    (l : list call) (tok : option string) (lookup : outcome track)
    : list call :=
  l ++ GetTrack id tok ::
    match lookup with
    | Rejected => []
    | Fulfilled t =>
        [Workflow.vote_message (Workflow.sender m) uri t;
         Reply (Workflow.chat_id m)
           (track_name t +:+ " von " +:+ join ", " (track_artists t)
              +:+ " wurde angefragt.")]
    end.

(** What one event other than a completed authorization may do: issue calls
    and keep the frame; a refresh request carries the cached refresh token,
    a queue request comes from an approve event only and a vote message from
    an inbound message only. *)
Definition step_ok (e : event) (st st' : state) (l : list call) : Prop :=
  frame st st' l
  ∧ Forall (refreshes_only (spotifyRefreshToken (sp st))) l
  ∧ Workflow.count Workflow.is_addToQueue l
    = (if is_accept e then 1 else 0)%nat
  ∧ (Workflow.count Workflow.is_sendMessage l
     <= if is_message e then 1 else 0)%nat.

(** What a run may do: [step_ok] summed up over its events, with the store
    allowed to change under the two credential keys. *)
Definition run_ok (es : list event) (st st' : state) (l : list call) : Prop :=
  log st' = log st ++ l
  ∧ spotifyRefreshToken (sp st') = spotifyRefreshToken (sp st)
  ∧ spotifyAccessToken (sp st') = spotifyAccessToken (sp st)
  ∧ Forall (refreshes_only (spotifyRefreshToken (sp st))) l
  ∧ Workflow.count Workflow.is_addToQueue l
    = length (List.filter is_accept es)
  ∧ (Workflow.count Workflow.is_sendMessage l
     <= length (List.filter is_message es))%nat
  ∧ (List.filter is_authorized es = [] → storage st' = storage st)
  ∧ (∀ k, k ≠ "spotify_refresh_token" → k ≠ "spotify_access_token" →
          storage st' !! k = storage st !! k).

End Bot.

(** ** Exceptions of the string helpers *)

Module Js.

Inductive error : Type := TypeError.

(** What the evaluation of an expression gives: a value, or a thrown
    exception. *)
Inductive result (A : Type) : Type :=
| Ok (a : A)
| Throw (e : error).
Arguments Ok {A} a.
Arguments Throw {A} e.

(** [url.match(regex)] with the regex of [spotifyUrlToUri]: capture group 1
    of the leftmost match, or [None] when nothing matches; reading the
    property [match] of [undefined] or [null] throws a [TypeError]. *)
Definition String_match (url : jsval) : result (option string) :=
  match url with
  | str s => Ok (Parser.regex_search s)
  | undefined | null => Throw TypeError
  end.

(** [function spotifyUrlToUri(url)], with the exceptions of its statements:
    the guard [if (!url) return undefined] comes before [url.match]. *)
Definition spotifyUrlToUri (url : jsval) : result (option string) :=
  if negb (truthy url) then Ok None
  else
    match String_match url with
    | Throw e => Throw e
    | Ok (Some id) => Ok (Some ("spotify:track:" +:+ id))
    | Ok None => Ok None
    end.

(** The handler of the message route, with the exceptions of its call of
    [spotifyUrlToUri]: an exception thrown there leaves the handler; once
    the call has returned, the handler goes on as [Workflow.handle_message]
    describes. *)
Definition handle_message (now : Z) (m : Workflow.message)
    (lookup : outcome track) (st : state) : result (state * completion) :=
  if isVotingGroup (Workflow.chat_id m) then Ok (st, Returned)
  else
    match spotifyUrlToUri (Workflow.text m) with
    | Throw e => Throw e
    | Ok _ => Ok (Workflow.handle_message now m lookup st)
    end.

End Js.

(** ** From the update to the handler *)

Module Pipeline.

(** The bot with the windows of the first limiter, which
    [bot.use(rateLimit())] installs before every handler. *)
Record bot : Type := {
  first_windows : gmap Z (list Z);
  prog : state
}.

(** Which of the registered commands an inbound message triggers, as the
    framework decides it from the command that the message starts with:
    [bot.start], [bot.help], the three [bot.command]s, or none of them.
    [SpotifyLogin] carries what [createAuthorizeURL] returns and
    [SpotifyToken] carries [ctx.args[0]]. *)
Inductive trigger : Type :=
| Start
| Help
| SpotifyLogin (authorizeURL : string)
| SpotifyToken (code : option string)
| Id
| NoCommand.

(** An update: an inbound message or a button tap, with its arrival time. *)
Inductive update : Type :=
| Incoming (now : Z) (t : trigger) (m : Workflow.message)
    (lookup : outcome track)
| Callback (now : Z) (v : Workflow.vote).

(** [ctx.from.id], the key of both limiters. *)
Definition update_key (u : update) : Z :=
  match u with
  | Incoming _ _ m _ => user_id (Workflow.sender m)
  | Callback _ (Workflow.Accept _ _ cb _ _)
  | Callback _ (Workflow.Decline cb) => user_id (Workflow.voter cb)
  end.

Definition update_time (u : update) : Z :=
  match u with
  | Incoming now _ _ _ | Callback now _ => now
  end.

(** The handlers in the order of their registration: a message that
    triggers a command stops at the handler of the command; any other
    message goes on to the message route; a tap goes to the vote
    handlers. *)
Definition handle (u : update) (st : state) : state :=
  match u with
  | Incoming _ Start m _ | Incoming _ Help m _ =>
      Commands.help (Workflow.chat_id m) st
  | Incoming _ (SpotifyLogin url) m _ =>
      Commands.spotifylogin (Workflow.chat_id m)
        (user_id (Workflow.sender m)) url st
  | Incoming _ (SpotifyToken code) m _ =>
      Token.spotifytoken (Workflow.chat_id m)
        (user_id (Workflow.sender m)) code st
  | Incoming _ Id m _ =>
      Commands.id (Workflow.chat_id m) (user_id (Workflow.sender m)) st
  | Incoming now NoCommand m lookup =>
      fst (Workflow.on_message now m lookup st)
  | Callback _ v => fst (Workflow.on_vote v st)
  end.

(** Whether the update is a message that goes to the message route and is
    let through by the limiter of that route. *)
Definition route_allows (u : update) (st : state) : bool :=
  match u with
  | Incoming now NoCommand m _ =>
      fst (RateLimit.allow RateLimit.trackLimitConfig
             (user_id (Workflow.sender m)) now (windows st))
  | _ => true
  end.

Definition to_route (u : update) : bool :=
  match u with
  | Incoming _ NoCommand _ _ => true
  | _ => false
  end.

(** What became of an update: the first limiter dropped it, the limiter of
    the message route answered it with the wait reply, or it reached its
    handler. *)
Inductive verdict : Type := Dropped | Limited | Handled.

(** [bot.use(rateLimit())] followed by the handlers.  The first limiter is
    the middleware of [RateLimit.allow], keyed by [ctx.from.id]; the
    options [defaults] that the package gives it are not in the sources and
    are an argument here.  The program passes it no [onLimitExceeded], so
    none of its code runs for an update that this limiter denies. *)
Definition receive (defaults : RateLimit.config) (u : update) (b : bot)
    : bot * verdict :=
  let '(ok, w) := RateLimit.allow defaults (update_key u) (update_time u)
                    (first_windows b) in
  if ok then
    ({| first_windows := w; prog := handle u (prog b) |},
     if route_allows u (prog b) then Handled else Limited)
  else ({| first_windows := w; prog := prog b |}, Dropped).

Fixpoint receive_all (defaults : RateLimit.config) (us : list update)
    (b : bot) : list verdict * bot :=
  match us with
  | [] => ([], b)
  | u :: us' =>
      let '(b', v) := receive defaults u b in
      let '(vs, b'') := receive_all defaults us' b' in
      (v :: vs, b'')
  end.

Definition is_handled (v : verdict) : bool :=
  match v with Handled => true | _ => false end.

Definition is_dropped (v : verdict) : bool :=
  match v with Dropped => true | _ => false end.

(** The arrival times of the messages of [user] that reached the handler of
    the message route. *)
Fixpoint handled_times (user : Z) (us : list update) (vs : list verdict)
    : list Z :=
  match us, vs with
  | u :: us', v :: vs' =>
      if to_route u && is_handled v && (update_key u =? user)
      then update_time u :: handled_times user us' vs'
      else handled_times user us' vs'
  | _, _ => []
  end.

(** Arrival times never decrease. *)
Fixpoint monotone (last : Z) (us : list update) : Prop :=
  match us with
  | [] => True
  | u :: us' => last <= update_time u ∧ monotone (update_time u) us'
  end.

(** The invariant of the route limiter for one key: the stored window is
    the pruning, at some time [p], of the list [A] of the allowed calls,
    and [A] has at most [limit] entries in any window. *)
Definition window_inv (cfg : RateLimit.config) (key : Z)
    (w : gmap Z (list Z)) (A : list Z) (p : Z) : Prop :=
  default [] (w !! key) = RateLimit.prune (RateLimit.window cfg) p A
  ∧ ∀ s, (RateLimit.count_within (RateLimit.window cfg) s A
          <= RateLimit.limit cfg)%nat.

(** A request of the user 7 in a private chat, at time [now]. *)
Definition request_at (now : Z) : update :=
  Incoming now NoCommand
    {| Workflow.chat_id := 7;
       Workflow.sender := {| user_id := 7; first_name := "Ada";
                             username := Some "ada_l" |};
       Workflow.text :=
         str "https://open.spotify.com/track/5hvIZF56tE8sAwMA9cKmQQ?si=abc" |}
    (Fulfilled {| track_name := "Song"; track_artists := ["A"; "B"];
                  track_url :=
                    "https://open.spotify.com/track/5hvIZF56tE8sAwMA9cKmQQ" |}).

(** The first limiter at one update per second and user. *)
Definition one_per_second : RateLimit.config :=
  {| RateLimit.window := 1000; RateLimit.limit := 1 |}.

(** The bot right after a start with an empty store at time 0. *)
Definition fresh : bot :=
  {| first_windows := ∅; prog := Token.startup 0 0 ∅ |}.

End Pipeline.

(** ** Sample data *)

Module Sample.

Definition ada : user :=
  {| user_id := 7; first_name := "Ada"; username := Some "ada_l" |}.

Definition bob : user :=
  {| user_id := 8; first_name := "Bob"; username := None |}.

(** A request sent in a private chat with the bot. *)
Definition request : Workflow.message :=
  {| Workflow.chat_id := 7; Workflow.sender := ada;
     Workflow.text :=
       str "https://open.spotify.com/track/5hvIZF56tE8sAwMA9cKmQQ?si=abc" |}.

(** A message written in the voting group. *)
Definition chatter : Workflow.message :=
  {| Workflow.chat_id := -1002454626909; Workflow.sender := bob;
     Workflow.text := str "ok" |}.

Definition song : track :=
  {| track_name := "Song"; track_artists := ["A"; "B"];
     track_url := "https://open.spotify.com/track/5hvIZF56tE8sAwMA9cKmQQ" |}.

(** A tap on a button of the vote message 100 in the voting group. *)
Definition tap (who : user) (button : string) (shown : string)
    : Workflow.callback :=
  {| Workflow.cb_chat := -1002454626909; Workflow.cb_message := 100;
     Workflow.voter := who; Workflow.data := button;
     Workflow.cb_text := str shown |}.

Definition uri : string := "spotify:track:5hvIZF56tE8sAwMA9cKmQQ".

Definition vote_text : string :=
  "Anfrage von Ada (@ada_l)" +:+ String "010" "" +:+ "Song • A, B".

(** Calls to the limiter by the users 7 and 8. *)
Definition calls : list (Z * Z) :=
  [(7, 0); (7, 1000); (8, 1500); (7, 2000); (7, 3000); (7, 300001)].

(** The bot right after a start with an empty store at time 0. *)
Definition fresh : state := Token.startup 0 0 ∅.

(** The bot started at time 0 with a cached pair, after the start-up
    refresh was answered at time 10 with a token valid for an hour. *)
Definition ready : state :=
  Token.refreshed 10 "A1" 3600
    (Token.startup 0 0
       (<["spotify_access_token" := "A0"]>
          (<["spotify_refresh_token" := "R0"]> ∅))).

End Sample.

Module Taps.


(** The sample bot with nobody known to the first limiter. *)
Definition ready : Pipeline.bot :=
  {| Pipeline.first_windows := ∅; Pipeline.prog := Sample.ready |}.

End Taps.

(** * Properties *)

(** ** The link parser *)

Section ParserFacts.
Import Parser UrlSpec.

Lemma append_nil (s : string) : "" +:+ s = s.
Proof. reflexivity. Qed.

Lemma append_cons (a : ascii) (s t : string) :
  String a s +:+ t = String a (s +:+ t).
Proof. reflexivity. Qed.

Lemma append_assoc (a b c : string) : (a +:+ b) +:+ c = a +:+ b +:+ c.
Proof.
  induction a as [|x a IH]; [done |].
  by rewrite !append_cons, IH.
Qed.

Lemma strip_prefix_app (p s : string) : strip_prefix p (p +:+ s) = Some s.
Proof.
  induction p as [|a p IH]; [by destruct s |].
  rewrite append_cons. simpl. by rewrite Ascii.eqb_refl.
Qed.

Lemma strip_prefix_Some (p s r : string) :
  strip_prefix p s = Some r → s = p +:+ r.
Proof.
  revert s. induction p as [|a p IH]; intros s; simpl.
  - intros [= ->]. by rewrite append_nil.
  - destruct s as [|b s]; [done |].
    destruct (Ascii.eqb a b) eqn:E; [| done].
    apply Ascii.eqb_eq in E as ->. intros H.
    by rewrite append_cons, (IH _ H).
Qed.

Lemma span_word_app (id rest : string) :
  all_word id = true → ends_id rest = true →
  span_word (id +:+ rest) = (id, rest).
Proof.
  induction id as [|c id IH]; intros Hid Hrest.
  - rewrite append_nil. destruct rest as [|c rest]; [done |].
    simpl in *. by destruct (is_word c).
  - simpl in Hid. apply andb_true_iff in Hid as [Hc Hid].
    rewrite append_cons. simpl. by rewrite Hc, IH.
Qed.

Lemma span_word_spec (s : string) :
  s = fst (span_word s) +:+ snd (span_word s)
  ∧ all_word (fst (span_word s)) = true
  ∧ ends_id (snd (span_word s)) = true.
Proof.
  induction s as [|c s (IH1 & IH2 & IH3)]; simpl; [done |].
  destruct (is_word c) eqn:Hc; simpl.
  - destruct (span_word s) as [w r]; simpl in *.
    rewrite Hc, IH2, append_cons. by rewrite <- IH1.
  - by rewrite Hc.
Qed.

Lemma capture_word_app (id rest : string) :
  word_id id → ends_id rest = true → capture_word (id +:+ rest) = Some id.
Proof.
  intros [Hne Hid] Hrest. unfold capture_word.
  rewrite span_word_app by done. simpl. by destruct id.
Qed.

Lemma capture_word_Some (s w : string) :
  capture_word s = Some w →
  ∃ r, s = w +:+ r ∧ word_id w ∧ ends_id r = true.
Proof.
  unfold capture_word. intros H.
  destruct (span_word_spec s) as (H1 & H2 & H3).
  destruct (fst (span_word s)) as [|c w'] eqn:E; [done |].
  injection H as <-. exists (snd (span_word s)).
  split_and!; [done | | done]. split; [done | done].
Qed.

Lemma match_host_url (id rest : string) :
  word_id id → ends_id rest = true →
  match_host ("://open.spotify.com/track/" +:+ id +:+ rest) = Some id.
Proof.
  intros Hid Hrest. unfold match_host.
  rewrite strip_prefix_app. by apply capture_word_app.
Qed.

Lemma match_host_Some (s w : string) :
  match_host s = Some w →
  ∃ r, s = "://open.spotify.com/track/" +:+ w +:+ r
       ∧ word_id w ∧ ends_id r = true.
Proof.
  unfold match_host. intros H.
  destruct (strip_prefix _ s) as [t|] eqn:E; [| done].
  apply strip_prefix_Some in E as ->.
  apply capture_word_Some in H as (r & -> & Hw & Hr). by exists r.
Qed.

Lemma match_here_url (s id : string) : url_at s id → match_here s = Some id.
Proof.
  intros (scheme & rest & [-> | ->] & Hid & Hrest & ->);
    unfold match_here, track_url; rewrite !append_assoc.
  - rewrite strip_prefix_app. rewrite !append_cons. simpl strip_prefix.
    rewrite <- !append_cons. by apply match_host_url.
  - change "https" with ("http" +:+ "s").
    rewrite !append_assoc, !strip_prefix_app.
    by rewrite match_host_url.
Qed.

Lemma match_here_Some (s w : string) : match_here s = Some w → url_at s w.
Proof.
  unfold match_here. intros H.
  destruct (strip_prefix "http" s) as [r|] eqn:E; [| done].
  apply strip_prefix_Some in E as ->.
  destruct (strip_prefix "s" r) as [r'|] eqn:E'.
  - apply strip_prefix_Some in E' as ->.
    destruct (match_host r') as [w'|] eqn:Hh.
    + injection H as ->.
      apply match_host_Some in Hh as (t & -> & Hw & Ht).
      exists "https", t. split_and!; [by right | done | done |].
      unfold track_url. by rewrite !append_assoc.
    + apply match_host_Some in H as (t & Heq & _). done.
  - apply match_host_Some in H as (t & -> & Hw & Ht).
    exists "http", t. split_and!; [by left | done | done |].
    unfold track_url. by rewrite !append_assoc.
Qed.

Lemma regex_search_eq (s : string) :
  regex_search s =
  match match_here s with
  | Some w => Some w
  | None => match s with
            | String _ s' => regex_search s'
            | EmptyString => None
            end
  end.
Proof. by destruct s. Qed.

(** The leftmost match wins. *)
Lemma regex_search_first (pre suf id : string) :
  url_at suf id → no_url_before (String.length pre) (pre +:+ suf) →
  regex_search (pre +:+ suf) = Some id.
Proof.
  induction pre as [|c pre IH]; intros Hat Hno.
  - by rewrite append_nil, regex_search_eq, (match_here_url _ _ Hat).
  - rewrite append_cons, regex_search_eq.
    destruct (match_here (String c (pre +:+ suf))) as [w|] eqn:E.
    + exfalso. apply match_here_Some in E.
      apply (Hno "" (String c (pre +:+ suf)) w); [done | simpl; lia | done].
    + apply IH; [done |]. intros p s i Heq Hlen Hu.
      apply (Hno (String c p) s i); [| simpl; lia | done].
      by rewrite !append_cons, Heq.
Qed.

Lemma regex_search_None (s : string) :
  ¬ contains_url s → regex_search s = None.
Proof.
  induction s as [|c s IH]; intros Hno; rewrite regex_search_eq.
  - destruct (match_here "") as [w|] eqn:E; [| done].
    exfalso. apply Hno. exists "", "", w. split; [done |].
    by apply match_here_Some.
  - destruct (match_here (String c s)) as [w|] eqn:E.
    + exfalso. apply Hno. exists "", (String c s), w. split; [done |].
      by apply match_here_Some.
    + apply IH. intros (p & t & i & -> & Hu). apply Hno.
      exists (String c p), t, i. by rewrite append_cons.
Qed.

Lemma regex_search_Some (s w : string) :
  regex_search s = Some w →
  ∃ pre suf, s = pre +:+ suf ∧ url_at suf w.
Proof.
  induction s as [|c s IH]; rewrite regex_search_eq; intros H.
  - destruct (match_here "") eqn:E; [| done]. injection H as ->.
    exists "", "". split; [done | by apply match_here_Some].
  - destruct (match_here (String c s)) eqn:E.
    + injection H as ->. exists "", (String c s).
      split; [done | by apply match_here_Some].
    + destruct (IH H) as (p & t & -> & Hu).
      exists (String c p), t. by rewrite append_cons.
Qed.

Lemma contains_url_search (s : string) :
  contains_url s → is_Some (regex_search s).
Proof.
  intros (pre & suf & id & -> & Hu). apply match_here_url in Hu.
  induction pre as [|c pre IH].
  - rewrite append_nil, regex_search_eq, Hu. by eexists.
  - rewrite append_cons, regex_search_eq.
    destruct (match_here (String c (pre +:+ suf))); [by eexists | done].
Qed.

Lemma not_contains_url (s : string) :
  regex_search s = None → ¬ contains_url s.
Proof.
  intros Hn Hc. apply contains_url_search in Hc as [w Hw]. congruence.
Qed.

Lemma no_match_before_sound (n : nat) (s : string) :
  no_match_before n s = true → no_url_before n s.
Proof.
  revert s. induction n as [|n IH]; intros s H pre suf id Heq Hlen Hu;
    [simpl in Hlen; lia |].
  simpl in H. destruct (match_here s) eqn:E; [done |].
  destruct pre as [|c pre].
  - rewrite append_nil in Heq. subst suf.
    by rewrite (match_here_url _ _ Hu) in E.
  - rewrite append_cons in Heq. subst s.
    apply (IH _ H pre suf id); [done | simpl in Hlen; lia | done].
Qed.

Lemma append_nil_r (s : string) : s +:+ "" = s.
Proof. induction s as [|c s IH]; [done |]. by rewrite append_cons, IH. Qed.

Lemma spotifyUrlToUri_str (s : string) :
  spotifyUrlToUri (str s) = (String.append "spotify:track:") <$> regex_search s.
Proof.
  unfold spotifyUrlToUri, truthy. destruct s as [|c s]; [done |].
  simpl negb. by destruct (regex_search (String c s)).
Qed.

Lemma url_at_self (scheme id rest : string) :
  web_scheme scheme → word_id id → ends_id rest = true →
  url_at (track_url scheme id +:+ rest) id.
Proof. intros Hs Hid Hr. by exists scheme, rest. Qed.

Lemma spotifyUrlToUri_first (pre scheme id rest : string) :
  web_scheme scheme → word_id id → ends_id rest = true →
  no_url_before (String.length pre) (pre +:+ track_url scheme id +:+ rest) →
  spotifyUrlToUri (str (pre +:+ track_url scheme id +:+ rest))
  = Some ("spotify:track:" +:+ id).
Proof.
  intros Hs Hid Hr Hno. rewrite spotifyUrlToUri_str.
  by rewrite (regex_search_first pre _ id (url_at_self _ _ _ Hs Hid Hr) Hno).
Qed.

Lemma spotifyUrlToUri_Some (v : jsval) (u : string) :
  spotifyUrlToUri v = Some u →
  ∃ s pre suf id, v = str s ∧ s = pre +:+ suf ∧ url_at suf id
                  ∧ u = "spotify:track:" +:+ id.
Proof.
  destruct v as [| |s]; [done | done |].
  rewrite spotifyUrlToUri_str. destruct (regex_search s) as [id|] eqn:E; [| done].
  intros [= <-]. apply regex_search_Some in E as (pre & suf & -> & Hu).
  by exists (pre +:+ suf), pre, suf, id.
Qed.

End ParserFacts.

(** C2: an input that contains the web URL of a track, over [http] or
    [https], after any text in which no such URL starts earlier and followed
    by nothing or by text that starts with a non-identifier character (a
    query string, for one), is parsed to [spotify:track:<id>] with the
    identifier of the URL; the URI is the same with and without a query
    string; the example link of the specification parses as stated; every
    input that contains such a URL is parsed to the URI of a track URL that
    occurs in it; and an input that contains no such URL, or is no string at
    all, has no match. *)
Theorem spotifyUrlToUri_track_url :
  (∀ pre scheme id rest,
      UrlSpec.web_scheme scheme → UrlSpec.word_id id →
      UrlSpec.ends_id rest = true →
      UrlSpec.no_url_before (String.length pre)
        (pre +:+ UrlSpec.track_url scheme id +:+ rest) →
      Parser.spotifyUrlToUri (str (pre +:+ UrlSpec.track_url scheme id +:+ rest))
      = Some ("spotify:track:" +:+ id))
  ∧ (∀ scheme id query,
      UrlSpec.web_scheme scheme → UrlSpec.word_id id →
      Parser.spotifyUrlToUri (str (UrlSpec.track_url scheme id +:+ "?" +:+ query))
      = Some ("spotify:track:" +:+ id)
      ∧ Parser.spotifyUrlToUri (str (UrlSpec.track_url scheme id))
        = Some ("spotify:track:" +:+ id))
  ∧ Parser.spotifyUrlToUri
      (str "https://open.spotify.com/track/5hvIZF56tE8sAwMA9cKmQQ?si=abc")
    = Some "spotify:track:5hvIZF56tE8sAwMA9cKmQQ"
  ∧ (∀ s, UrlSpec.contains_url s →
          ∃ pre suf id, s = pre +:+ suf ∧ UrlSpec.url_at suf id
                        ∧ Parser.spotifyUrlToUri (str s)
                          = Some ("spotify:track:" +:+ id))
  ∧ (∀ v, (∀ s, v = str s → ¬ UrlSpec.contains_url s) →
          Parser.spotifyUrlToUri v = None).
Proof.
  split_and!.
  - intros pre scheme id rest. apply spotifyUrlToUri_first.
  - intros scheme id query Hs Hid. split.
    + apply (spotifyUrlToUri_first "" scheme id ("?" +:+ query)); try done.
      intros pre suf i _ Hlen. simpl in Hlen. lia.
    + rewrite <- (append_nil_r (UrlSpec.track_url scheme id)).
      apply (spotifyUrlToUri_first "" scheme id ""); try done.
      intros pre suf i _ Hlen. simpl in Hlen. lia.
  - reflexivity.
  - intros s Hc. destruct (contains_url_search s Hc) as [id Hid].
    destruct (regex_search_Some s id Hid) as (pre & suf & Heq & Hu).
    exists pre, suf, id. by rewrite spotifyUrlToUri_str, Hid.
  - intros v Hv. destruct v as [| |s]; [done | done |].
    rewrite spotifyUrlToUri_str, regex_search_None; [done |].
    by apply Hv.
Qed.

Lemma spotifyUrlToUri_track_url_witness :
  Parser.spotifyUrlToUri
    (str ("https: " +:+ UrlSpec.track_url "http" "abc_9" +:+ "-x?si=1"))
  = Some ("spotify:track:" +:+ "abc_9")
  ∧ Parser.spotifyUrlToUri (str (UrlSpec.track_url "https" "Zz0" +:+ "?" +:+ "si=1"))
    = Some ("spotify:track:" +:+ "Zz0")
  ∧ Parser.spotifyUrlToUri (str "open.spotify.com/track/abc") = None.
Proof.
  destruct spotifyUrlToUri_track_url as (H1 & H2 & _ & _ & H4).
  split_and!.
  - apply (H1 "https: " "http" "abc_9" "-x?si=1").
    + by left.
    + by split.
    + reflexivity.
    + apply no_match_before_sound. reflexivity.
  - apply (H2 "https" "Zz0" "si=1"); [by right | by split].
  - apply H4. intros s [= <-]. apply not_contains_url. reflexivity.
Defined.


(** C10: for every URI [u] that [spotifyUrlToUri] returns, the callback data
    of the approve button of the vote message built for [u] is
    ["accept:" + u], it matches the pattern of the approve action, and the
    captured group is [u]. *)
Theorem accept_data_round_trip (v : jsval) (u : string) :
  Parser.spotifyUrlToUri v = Some u →
  (∀ requester t,
      accept_data <$> Workflow.keyboard_of (Workflow.vote_message requester u t)
      = Some ("accept:" +:+ u))
  ∧ Parser.match_accept ("accept:" +:+ u) = Some u.
Proof.
  intros H. split.
  - intros requester t. unfold Workflow.vote_message.
    by destruct (formatTrackInfo t).
  - apply spotifyUrlToUri_Some in H as (s & pre & suf & id & _ & _ & Hu & ->).
    destruct Hu as (_ & _ & _ & Hid & _ & _).
    unfold Parser.match_accept.
    rewrite !strip_prefix_app.
    rewrite <- (append_nil_r id) at 1.
    by rewrite capture_word_app.
Qed.

Lemma accept_data_round_trip_witness :
  Parser.match_accept ("accept:" +:+ "spotify:track:5hvIZF56tE8sAwMA9cKmQQ")
  = Some "spotify:track:5hvIZF56tE8sAwMA9cKmQQ".
Proof.
  apply (accept_data_round_trip
           (str "https://open.spotify.com/track/5hvIZF56tE8sAwMA9cKmQQ?si=abc")
           "spotify:track:5hvIZF56tE8sAwMA9cKmQQ").
  reflexivity.
Defined.

(** ** The rate limiter *)

Lemma prune_all (W now : Z) (ts : list Z) :
  Forall (λ t, now - W <= t) ts → RateLimit.prune W now ts = ts.
Proof.
  unfold RateLimit.prune. induction 1 as [|t ts Ht _ IH]; [done |]. simpl.
  rewrite IH. by rewrite (proj2 (Z.leb_le _ _) Ht).
Qed.

Section RateLimitFacts.
Import RateLimit.

Variable cfg : config.
Hypothesis window_nonneg : 0 <= window cfg.

Lemma prune_prune (p now : Z) (ts : list Z) :
  p <= now →
  prune (window cfg) now (prune (window cfg) p ts) = prune (window cfg) now ts.
Proof.
  intros Hp. unfold prune. induction ts as [|t ts IH]; [done |]. simpl.
  destruct (p - window cfg <=? t) eqn:E1; simpl;
    destruct (now - window cfg <=? t) eqn:E2; rewrite IH; try done.
  apply Z.leb_le in E2. apply Z.leb_gt in E1. lia.
Qed.

Lemma prune_snoc (now : Z) (ts : list Z) :
  prune (window cfg) now (ts ++ [now]) = prune (window cfg) now ts ++ [now].
Proof.
  unfold prune. rewrite List.filter_app. simpl.
  destruct (now - window cfg <=? now) eqn:E; [done |].
  apply Z.leb_gt in E. lia.
Qed.

(** Whatever lies in a window that contains [now] survives the pruning at
    [now]. *)
Lemma count_within_prune (s now : Z) (ts : list Z) :
  s <= now <= s + window cfg →
  (count_within (window cfg) s ts <= length (prune (window cfg) now ts))%nat.
Proof.
  intros Hs. unfold count_within, prune.
  induction ts as [|t ts IH]; [done |]. simpl.
  destruct ((s <=? t) && (t <=? s + window cfg)) eqn:E1;
    destruct (now - window cfg <=? t) eqn:E2; simpl; lia.
Qed.

Lemma count_within_snoc (s t : Z) (ts : list Z) :
  count_within (window cfg) s (ts ++ [t])
  = (count_within (window cfg) s ts
     + if ((s <=? t) && (t <=? s + window cfg))%Z then 1 else 0)%nat.
Proof.
  unfold count_within. rewrite List.filter_app, length_app. simpl.
  by destruct ((s <=? t) && (t <=? s + window cfg)).
Qed.

(** The invariant of a run, for one key: the stored window is the pruning of
    the history [A] of allowed calls, and [A] has at most [limit] entries in
    any window. *)
Lemma run_bound (key : Z) (calls : list (Z * Z)) :
  ∀ (w : gmap Z (list Z)) (A : list Z) (p last : Z),
    p <= last → monotone last calls →
    default [] (w !! key) = prune (window cfg) p A →
    (∀ s, (count_within (window cfg) s A <= limit cfg)%nat) →
    ∀ s, (count_within (window cfg) s
            (A ++ allowed_times key calls (fst (run cfg calls w)))
          <= limit cfg)%nat.
Proof.
  induction calls as [|[k now] calls IH]; intros w A p last Hp Hmono Hw HA s.
  - simpl. by rewrite app_nil_r.
  - destruct Hmono as [Hlast Hmono]. simpl.
    destruct (allow cfg k now w) as [b w'] eqn:Ea.
    destruct (run cfg calls w') as [bs w''] eqn:Er. simpl.
    assert (bs = fst (run cfg calls w')) as -> by by rewrite Er.
    unfold allow in Ea.
    destruct (decide (k = key)) as [-> | Hne].
    + rewrite Hw, prune_prune in Ea by lia.
      rewrite Z.eqb_refl, andb_true_r.
      destruct (length (prune (window cfg) now A) <? limit cfg)%nat eqn:El;
        injection Ea as <- <-.
      * change (now :: ?l) with ([now] ++ l). rewrite app_assoc.
        apply (IH _ (A ++ [now]) now now); [lia | done | |].
        -- by rewrite lookup_insert_eq, prune_snoc.
        -- intros s'. rewrite count_within_snoc.
           apply Nat.ltb_lt in El.
           destruct ((s' <=? now) && (now <=? s' + window cfg)) eqn:E.
           ++ apply andb_true_iff in E as [E1 E2].
              apply Z.leb_le in E1, E2.
              pose proof (count_within_prune s' now A ltac:(lia)). lia.
           ++ specialize (HA s'). lia.
      * apply (IH _ A now now); [lia | done | | done].
        by rewrite lookup_insert_eq.
    + assert ((k =? key) = false) as -> by by apply Z.eqb_neq.
      rewrite andb_false_r.
      apply (IH _ A p now); [lia | done | | done].
      destruct (length _ <? limit cfg)%nat; injection Ea as <- <-;
        by rewrite lookup_insert_ne.
Qed.

(** From the empty limiter: at most [limit] allowed calls of one key in any
    window of width [window]. *)
Lemma run_sliding_window (key last : Z) (calls : list (Z * Z)) (s : Z) :
  monotone last calls →
  (count_within (window cfg) s
     (allowed_times key calls (fst (run cfg calls ∅))) <= limit cfg)%nat.
Proof.
  intros Hmono.
  apply (run_bound key calls ∅ [] last last); [lia | done | done |].
  intros s'. unfold count_within. simpl. lia.
Qed.

End RateLimitFacts.

(** ** The handlers: logs and windows *)

Section HandlerFacts.
Import Workflow.

Lemma new_calls_app (st st' : state) (l : list call) :
  log st' = log st ++ l → new_calls st st' = l.
Proof. intros H. unfold new_calls. by rewrite H, drop_app_length. Qed.

(** [getSpotify] issues at most the refresh request. *)
Lemma getSpotify_log (now : Z) (st : state) :
  ∃ l, log (Token.getSpotify now true st) = log st ++ l
       ∧ count is_getTrack l = 0%nat ∧ count is_addToQueue l = 0%nat
       ∧ count is_sendMessage l = 0%nat ∧ count is_reply l = 0%nat
       ∧ windows (Token.getSpotify now true st) = windows st
       ∧ storage (Token.getSpotify now true st) = storage st.
Proof.
  unfold Token.getSpotify, Token.refreshSpotifyToken.
  destruct (_ || _).
  - by eexists [_].
  - exists []. by rewrite app_nil_r.
Qed.

Lemma match_track_eq (s : string) :
  Parser.match_track s =
  match Parser.match_track_here s with
  | Some w => Some w
  | None => match s with
            | String _ s' => Parser.match_track s'
            | EmptyString => None
            end
  end.
Proof. by destruct s. Qed.

Lemma match_track_uri (id : string) :
  UrlSpec.word_id id → Parser.match_track ("spotify:track:" +:+ id) = Some id.
Proof.
  intros Hid.
  assert (Parser.match_track_here ("spotify:track:" +:+ id) = Some id) as H.
  { unfold Parser.match_track_here. rewrite strip_prefix_app.
    rewrite <- (append_nil_r id) at 1. by apply capture_word_app. }
  by rewrite match_track_eq, H.
Qed.

Lemma spotifyUrlToUri_match_track (v : jsval) (u : string) :
  Parser.spotifyUrlToUri v = Some u → is_Some (Parser.match_track u).
Proof.
  intros H. apply spotifyUrlToUri_Some in H as (s & pre & suf & id & _ & _ & Hu & ->).
  destruct Hu as (_ & _ & _ & Hid & _ & _).
  rewrite match_track_uri by done. by eexists.
Qed.

(** The handler of a request in a chat other than the voting group: one
    [getTrack] request is sent, and the limiter windows are left alone. *)
Lemma handle_message_request (now : Z) (m : message) (lookup : outcome track)
    (st : state) :
  isVotingGroup (chat_id m) = false →
  is_Some (Parser.spotifyUrlToUri (text m)) →
  ∃ l, log (fst (handle_message now m lookup st)) = log st ++ l
       ∧ count is_getTrack l = 1%nat
       ∧ windows (fst (handle_message now m lookup st)) = windows st.
Proof.
  intros Hchat [u Hu]. unfold handle_message. rewrite Hchat, Hu.
  destruct (spotifyUrlToUri_match_track _ _ Hu) as [id Hid].
  unfold resolveTrack. rewrite Hid.
  destruct (getSpotify_log now st) as (l & Hl & Hg & _ & _ & _ & Hw & _).
  destruct lookup as [t|]; [destruct (formatTrackInfo t) |];
    cbn [fst log windows emit]; rewrite Hl, Hw.
  - eexists (l ++ [_; _; _]). rewrite <- !app_assoc. split; [done |].
    split; [| done]. unfold count in *.
    rewrite List.filter_app, length_app, Hg.
    unfold vote_message. by destruct (formatTrackInfo t).
  - eexists (l ++ [_]). rewrite <- !app_assoc. split; [done |].
    split; [| done]. unfold count in *.
    by rewrite List.filter_app, length_app, Hg.
Qed.

(** The route when the limiter allows. *)
Lemma on_message_allowed (now : Z) (m : message) (lookup : outcome track)
    (st : state) :
  let ts := RateLimit.prune (RateLimit.window RateLimit.trackLimitConfig) now
              (default [] (windows st !! user_id (sender m))) in
  (length ts < 3)%nat →
  on_message now m lookup st
  = handle_message now m lookup
      (with_windows (<[user_id (sender m) := ts ++ [now]]> (windows st)) st).
Proof.
  intros ts Hlen. unfold on_message, RateLimit.allow. fold ts.
  change (RateLimit.limit RateLimit.trackLimitConfig) with 3%nat.
  by rewrite (proj2 (Nat.ltb_lt _ _) Hlen).
Qed.

(** The route when the limiter denies. *)
Lemma on_message_denied (now : Z) (m : message) (lookup : outcome track)
    (st : state) :
  let ts := RateLimit.prune (RateLimit.window RateLimit.trackLimitConfig) now
              (default [] (windows st !! user_id (sender m))) in
  (3 <= length ts)%nat →
  on_message now m lookup st
  = (emit (Reply (chat_id m) RateLimit.limit_reply)
       (with_windows (<[user_id (sender m) := ts]> (windows st)) st),
     Returned).
Proof.
  intros ts Hlen. unfold on_message, RateLimit.allow. fold ts.
  change (RateLimit.limit RateLimit.trackLimitConfig) with 3%nat.
  by rewrite (proj2 (Nat.ltb_ge _ _) Hlen).
Qed.

End HandlerFacts.


(** Four requests of one user within five minutes, on the message route:
    the first three reach the lookup, the fourth gets the wait reply. *)
Lemma four_requests_on_route (st0 : state) (user t1 t2 t3 t4 : Z)
    (m1 m2 m3 m4 : Workflow.message) (l1 l2 l3 l4 : outcome track) :
  windows st0 !! user = None →
  t1 <= t2 <= t3 → t3 <= t4 <= t1 + 5 * 60 * 1000 →
  Forall (λ m, user_id (Workflow.sender m) = user
               ∧ isVotingGroup (Workflow.chat_id m) = false
               ∧ is_Some (Parser.spotifyUrlToUri (Workflow.text m)))
    [m1; m2; m3; m4] →
  let st1 := fst (Workflow.on_message t1 m1 l1 st0) in
  let st2 := fst (Workflow.on_message t2 m2 l2 st1) in
  let st3 := fst (Workflow.on_message t3 m3 l3 st2) in
  let st4 := fst (Workflow.on_message t4 m4 l4 st3) in
  Workflow.count Workflow.is_getTrack (Workflow.new_calls st0 st1) = 1%nat
  ∧ Workflow.count Workflow.is_getTrack (Workflow.new_calls st1 st2) = 1%nat
  ∧ Workflow.count Workflow.is_getTrack (Workflow.new_calls st2 st3) = 1%nat
  ∧ Workflow.new_calls st3 st4
    = [Reply (Workflow.chat_id m4) "Limit überschritten, bitte warten!"]
  ∧ windows st3 = <[user := [t1; t2; t3]]> (windows st2)
  ∧ windows st2 = <[user := [t1; t2]]> (windows st1)
  ∧ windows st1 = <[user := [t1]]> (windows st0).
Proof.
  intros Hw0 Ht Ht' Hall.
  apply Forall_cons in Hall as [(Hu1 & Hc1 & Hp1) Hall].
  apply Forall_cons in Hall as [(Hu2 & Hc2 & Hp2) Hall].
  apply Forall_cons in Hall as [(Hu3 & Hc3 & Hp3) Hall].
  apply Forall_cons in Hall as [(Hu4 & Hc4 & Hp4) _].
  intros st1 st2 st3 st4.
  (* first request *)
  assert (Workflow.count Workflow.is_getTrack (Workflow.new_calls st0 st1)
          = 1%nat ∧ windows st1 = <[user := [t1]]> (windows st0))
    as [H1 W1].
  { subst st1. rewrite on_message_allowed; rewrite Hu1, Hw0; [| simpl; lia].
    destruct (handle_message_request t1 m1 l1
                (with_windows (<[user := [] ++ [t1]]> (windows st0)) st0)
                Hc1 Hp1) as (l & Hl & Hg & Hw).
    simpl default. simpl RateLimit.prune.
    split; [by rewrite (new_calls_app _ _ l) | by rewrite Hw]. }
  (* second request *)
  assert (Workflow.count Workflow.is_getTrack (Workflow.new_calls st1 st2)
          = 1%nat ∧ windows st2 = <[user := [t1; t2]]> (windows st1))
    as [H2 W2].
  { subst st2.
    assert (RateLimit.prune
              (RateLimit.window RateLimit.trackLimitConfig) t2
              (default [] (windows st1 !! user)) = [t1]) as Hpr.
    { rewrite W1, lookup_insert_eq. apply prune_all.
      repeat constructor; simpl; lia. }
    rewrite on_message_allowed; rewrite Hu2, Hpr; [| simpl; lia].
    destruct (handle_message_request t2 m2 l2
                (with_windows (<[user := [t1] ++ [t2]]> (windows st1)) st1)
                Hc2 Hp2) as (l & Hl & Hg & Hw).
    split; [by rewrite (new_calls_app _ _ l) | by rewrite Hw]. }
  (* third request *)
  assert (Workflow.count Workflow.is_getTrack (Workflow.new_calls st2 st3)
          = 1%nat ∧ windows st3 = <[user := [t1; t2; t3]]> (windows st2))
    as [H3 W3].
  { subst st3.
    assert (RateLimit.prune
              (RateLimit.window RateLimit.trackLimitConfig) t3
              (default [] (windows st2 !! user)) = [t1; t2]) as Hpr.
    { rewrite W2, lookup_insert_eq. apply prune_all.
      repeat constructor; simpl; lia. }
    rewrite on_message_allowed; rewrite Hu3, Hpr; [| simpl; lia].
    destruct (handle_message_request t3 m3 l3
                (with_windows (<[user := [t1; t2] ++ [t3]]> (windows st2)) st2)
                Hc3 Hp3) as (l & Hl & Hg & Hw).
    split; [by rewrite (new_calls_app _ _ l) | by rewrite Hw]. }
  split_and!; [done | done | done | | done | done | done].
  (* fourth request *)
  subst st4.
  assert (RateLimit.prune
            (RateLimit.window RateLimit.trackLimitConfig) t4
            (default [] (windows st3 !! user)) = [t1; t2; t3]) as Hpr.
  { rewrite W3, lookup_insert_eq. apply prune_all.
    repeat constructor; simpl; lia. }
  rewrite on_message_denied; rewrite Hu4, Hpr; [| simpl; lia].
  by apply new_calls_app.
Qed.

(** ** Messages from the voting group *)

Lemma handle_message_voting_group (now : Z) (m : Workflow.message)
    (lookup : outcome track) (st : state) :
  isVotingGroup (Workflow.chat_id m) = true →
  Workflow.handle_message now m lookup st = (st, Returned).
Proof. intros H. unfold Workflow.handle_message. by rewrite H. Qed.

(** C8, as the claim states it, fails: the limiter of the route runs before
    the handler, so the fourth message that one member writes in the voting
    group within five minutes is answered with the wait reply, in the
    voting group. *)
Lemma voting_group_message_answered :
  isVotingGroup (Workflow.chat_id Sample.chatter) = true
  ∧ let st3 :=
      fst (Workflow.on_message 2000 Sample.chatter Rejected
             (fst (Workflow.on_message 1000 Sample.chatter Rejected
                     (fst (Workflow.on_message 0 Sample.chatter Rejected
                             Sample.fresh))))) in
    Workflow.new_calls st3
      (fst (Workflow.on_message 3000 Sample.chatter Rejected st3))
    = [Reply (-1002454626909) "Limit überschritten, bitte warten!"].
Proof. split; reflexivity. Qed.

(** C8, amended: for a message from the voting group the handler returns at
    once and leaves the state as it is, whatever the text; on the route,
    such a message that the limiter lets through causes no call at all (no
    lookup, no vote message, no reply), one that the limiter denies causes
    the wait reply and nothing else, and in both cases the outcome does not
    depend on the text of the message. *)
Theorem voting_group_message_ignored (now : Z) (m : Workflow.message)
    (lookup : outcome track) (st : state) :
  isVotingGroup (Workflow.chat_id m) = true →
  Workflow.handle_message now m lookup st = (st, Returned)
  ∧ Workflow.new_calls st (fst (Workflow.on_message now m lookup st))
    = (if fst (RateLimit.allow RateLimit.trackLimitConfig
                 (user_id (Workflow.sender m)) now (windows st))
       then []
       else [Reply (Workflow.chat_id m) RateLimit.limit_reply])
  ∧ snd (Workflow.on_message now m lookup st) = Returned
  ∧ ∀ m' lookup',
      Workflow.chat_id m' = Workflow.chat_id m →
      Workflow.sender m' = Workflow.sender m →
      Workflow.on_message now m' lookup' st
      = Workflow.on_message now m lookup st.
Proof.
  intros Hv. split; [by apply handle_message_voting_group |].
  unfold Workflow.on_message.
  destruct (RateLimit.allow _ _ _ _) as [ok w] eqn:Ea. simpl fst.
  split_and!.
  - destruct ok.
    + rewrite handle_message_voting_group by done.
      apply new_calls_app. simpl. by rewrite app_nil_r.
    + by apply new_calls_app.
  - destruct ok; [by rewrite handle_message_voting_group | done].
  - intros m' lookup' Hc Hs. rewrite Hs, Ea, Hc.
    destruct ok; [| done].
    rewrite !handle_message_voting_group; [done | done | by rewrite Hc].
Qed.

Lemma voting_group_message_ignored_witness :
  Workflow.handle_message 0 Sample.chatter Rejected Sample.fresh
  = (Sample.fresh, Returned)
  ∧ Workflow.new_calls Sample.fresh
      (fst (Workflow.on_message 0 Sample.chatter Rejected Sample.fresh))
    = [].
Proof.
  destruct (voting_group_message_ignored 0 Sample.chatter Rejected
              Sample.fresh eq_refl) as (H1 & H2 & _).
  split; [exact H1 | exact H2].
Defined.

(** ** A failed track lookup *)

(** C7, as the claim states it, fails: when the lookup of a matched link is
    rejected, the requester gets no reply and the rejection leaves the
    handler uncaught. *)
Lemma lookup_failure_unanswered :
  Parser.spotifyUrlToUri (Workflow.text Sample.request) = Some Sample.uri
  ∧ snd (Workflow.on_message 50000 Sample.request Rejected Sample.ready)
    = Uncaught LookupRejected
  ∧ Workflow.new_calls Sample.ready
      (fst (Workflow.on_message 50000 Sample.request Rejected Sample.ready))
    = [GetTrack "5hvIZF56tE8sAwMA9cKmQQ" (Some "A1")].
Proof. split_and!; reflexivity. Qed.

(** C7, amended: when the lookup of a matched link fails, in a chat other
    than the voting group, the [getTrack] request is the last call of the
    handler: no vote message is posted and no reply is sent, and the
    rejection leaves the handler uncaught; the same holds of the route when
    the limiter lets the message through. *)
Theorem lookup_failure_posts_nothing (now : Z) (m : Workflow.message)
    (st : state) (u : string) :
  isVotingGroup (Workflow.chat_id m) = false →
  Parser.spotifyUrlToUri (Workflow.text m) = Some u →
  (∀ st0,
      let r := Workflow.handle_message now m Rejected st0 in
      snd r = Uncaught LookupRejected
      ∧ Workflow.count Workflow.is_getTrack (Workflow.new_calls st0 (fst r)) = 1%nat
      ∧ Workflow.count Workflow.is_sendMessage (Workflow.new_calls st0 (fst r)) = 0%nat
      ∧ Workflow.count Workflow.is_reply (Workflow.new_calls st0 (fst r)) = 0%nat)
  ∧ (fst (RateLimit.allow RateLimit.trackLimitConfig
            (user_id (Workflow.sender m)) now (windows st)) = true →
     let r := Workflow.on_message now m Rejected st in
     snd r = Uncaught LookupRejected
     ∧ Workflow.count Workflow.is_sendMessage (Workflow.new_calls st (fst r)) = 0%nat
     ∧ Workflow.count Workflow.is_reply (Workflow.new_calls st (fst r)) = 0%nat).
Proof.
  intros Hchat Hu.
  assert (∀ st0,
      let r := Workflow.handle_message now m Rejected st0 in
      snd r = Uncaught LookupRejected
      ∧ Workflow.count Workflow.is_getTrack (Workflow.new_calls st0 (fst r)) = 1%nat
      ∧ Workflow.count Workflow.is_sendMessage (Workflow.new_calls st0 (fst r)) = 0%nat
      ∧ Workflow.count Workflow.is_reply (Workflow.new_calls st0 (fst r)) = 0%nat)
    as Hh.
  { intros st0 r. subst r. unfold Workflow.handle_message.
    rewrite Hchat, Hu.
    destruct (spotifyUrlToUri_match_track _ _ Hu) as [id Hid].
    unfold Workflow.resolveTrack. rewrite Hid.
    destruct (getSpotify_log now st0) as (l & Hl & Hg & _ & Hs & Hr & _).
    cbn [fst snd]. split; [done |].
    rewrite (new_calls_app _ _ (l ++ [GetTrack id
               (api_access (sp (Token.getSpotify now true st0)))]))
      by (cbn [log emit]; by rewrite Hl, <- app_assoc).
    unfold Workflow.count in *.
    rewrite !List.filter_app, !length_app, Hg, Hs, Hr. done. }
  split; [exact Hh |]. intros Hok r. subst r. unfold Workflow.on_message.
  destruct (RateLimit.allow _ _ _ _) as [ok w]. simpl in Hok. subst ok.
  destruct (Hh (with_windows w st)) as (H1 & _ & H3 & H4).
  split; [done |]. split; [exact H3 | exact H4].
Qed.

Lemma lookup_failure_posts_nothing_witness :
  snd (Workflow.handle_message 50000 Sample.request Rejected Sample.ready)
  = Uncaught LookupRejected
  ∧ Workflow.count Workflow.is_reply
      (Workflow.new_calls Sample.ready
         (fst (Workflow.handle_message 50000 Sample.request Rejected
                 Sample.ready))) = 0%nat.
Proof.
  destruct (lookup_failure_posts_nothing 50000 Sample.request Sample.ready
              Sample.uri eq_refl eq_refl) as [H _].
  destruct (H Sample.ready) as (H1 & _ & _ & H4).
  split; [exact H1 | exact H4].
Defined.

(** ** Votes *)

Section VoteFacts.
Import Workflow.

Lemma getSpotify_calls (now : Z) (st : state) :
  ∃ l, refresh_only l ∧ log (Token.getSpotify now true st) = log st ++ l.
Proof.
  unfold Token.getSpotify, Token.refreshSpotifyToken.
  destruct (_ || _).
  - eexists [_]. split; [right; by eexists | done].
  - exists []. split; [by left | by rewrite app_nil_r].
Qed.

Lemma close_vote_log (cb : callback) (st : state) :
  log (close_vote cb st)
  = log st ++ [EditMessageText (cb_chat cb) (cb_message cb)
                 ("Von " +:+ formatUser (voter cb) +:+ " abgelehnt: "
                    +:+ template (cb_text cb));
               EditMessageReplyMarkup (cb_chat cb) (cb_message cb) None].
Proof. unfold close_vote. simpl. by rewrite <- app_assoc. Qed.

Lemma match_accept_track (d uri : string) :
  Parser.match_accept d = Some uri → is_Some (Parser.match_track uri).
Proof.
  unfold Parser.match_accept. intros H.
  destruct (Parser.strip_prefix "accept:" d) as [r|]; [| done].
  destruct (Parser.strip_prefix "spotify:track:" r) as [t|]; [| done].
  destruct (Parser.capture_word t) as [w|] eqn:E; [| done].
  injection H as <-. apply capture_word_Some in E as (_ & _ & Hw & _).
  rewrite match_track_uri by done. by eexists.
Qed.

Lemma on_accept_calls (now now' : Z) (cb : callback) (queued : outcome unit)
    (lookup : outcome track) (st : state) (uri : string) :
  Parser.match_accept (data cb) = Some uri →
  ∃ l1 l2 tok1 tok2 id,
    refresh_only l1 ∧ refresh_only l2
    ∧ Parser.match_track uri = Some id
    ∧ log (fst (on_accept now now' cb queued lookup st))
      = log st ++ accept_calls cb uri id l1 l2 tok1 tok2 queued lookup.
Proof.
  intros Hm. destruct (match_accept_track _ _ Hm) as [id Hid].
  unfold on_accept, addToSpotifyQueue, resolveTrack, accept_calls. rewrite Hm.
  destruct (getSpotify_calls now st) as (l1 & Hr1 & Hl1).
  set (st1 := Token.getSpotify now true st) in *.
  set (st2 := emit (AddToQueue uri (api_access (sp st1))) st1).
  destruct (getSpotify_calls now' st2) as (l2 & Hr2 & Hl2).
  exists l1, l2, (api_access (sp st1)),
    (api_access (sp (Token.getSpotify now' true st2))), id.
  split_and!; [done | done | done |].
  destruct queued as [[]|].
  - rewrite Hid.
    destruct lookup as [t|].
    + unfold formatTrackInfo. cbn [fst].
      rewrite close_vote_log. cbn [log emit]. rewrite Hl2.
      subst st2. cbn [log emit]. rewrite Hl1.
      rewrite <- ?app_assoc. simpl. by rewrite <- ?app_assoc.
    + cbn [fst log emit]. rewrite Hl2.
      subst st2. cbn [log emit]. rewrite Hl1.
      rewrite <- ?app_assoc. simpl. by rewrite <- ?app_assoc.
  - cbn [fst]. subst st2. cbn [log emit].
    by rewrite Hl1, <- ?app_assoc.
Qed.

Lemma accept_calls_count (cb : callback) (uri id : string)
    (l1 l2 : list call) (tok1 tok2 : option string)
    (queued : outcome unit) (lookup : outcome track) :
  refresh_only l1 → refresh_only l2 →
  count is_addToQueue
    (accept_calls cb uri id l1 l2 tok1 tok2 queued lookup) = 1%nat.
Proof.
  intros [-> | [r1 ->]] [-> | [r2 ->]];
    by destruct queued as [[]|], lookup.
Qed.




End VoteFacts.



(** C6: the approve handler, with the queue request and the lookup
    fulfilled, sends one queue request for the URI of the request and then
    rewrites the vote message: the text it writes names the voter, but it is
    the text of the decline handler, which says that the voter declined
    ([abgelehnt]) the request. *)
Theorem approval_is_shown_as_declined :
  Workflow.new_calls Sample.ready
    (fst (Workflow.on_accept 60000 60100
            (Sample.tap Sample.ada ("accept:" +:+ Sample.uri) Sample.vote_text)
            (Fulfilled ()) (Fulfilled Sample.song) Sample.ready))
  = [AddToQueue Sample.uri (Some "A1");
     GetTrack "5hvIZF56tE8sAwMA9cKmQQ" (Some "A1");
     Reply (-1002454626909) "Lied zur Queue hinzugefügt: Song • A, B";
     EditMessageText (-1002454626909) 100
       ("Von Ada (@ada_l) abgelehnt: " +:+ Sample.vote_text);
     EditMessageReplyMarkup (-1002454626909) 100 None]
  ∧ Workflow.new_calls Sample.ready
      (fst (Workflow.on_decline
              (Sample.tap Sample.ada "decline" Sample.vote_text) Sample.ready))
    = [EditMessageText (-1002454626909) 100
         ("Von Ada (@ada_l) abgelehnt: " +:+ Sample.vote_text);
       EditMessageReplyMarkup (-1002454626909) 100 None].
Proof. split; reflexivity. Qed.

(** ** Tokens *)

(** Before the recorded expiry time [getSpotify] leaves everything as it
    is and sends nothing. *)
Lemma getSpotify_before_expiry (now : Z) (st : state) :
  now < spotifyTokenExpires (sp st) → Token.getSpotify now true st = st.
Proof.
  intros H. unfold Token.getSpotify, Token.refreshSpotifyToken.
  by rewrite (proj2 (Z.leb_gt _ _) H).
Qed.

(** The grant continuation leaves the expiry time and the cached pair as
    they were. *)
Lemma authorized_keeps_globals (chat : Z) (g : Token.grant) (st : state) :
  spotifyTokenExpires (sp (Token.authorized chat g st))
  = spotifyTokenExpires (sp st)
  ∧ spotifyAccessToken (sp (Token.authorized chat g st))
    = spotifyAccessToken (sp st)
  ∧ spotifyRefreshToken (sp (Token.authorized chat g st))
    = spotifyRefreshToken (sp st).
Proof. done. Qed.

(** After a start with an empty store, at whatever time the authorization
    is completed, the next [getSpotify] drops the granted token. *)
Lemma getSpotify_after_first_authorization (t0 t1 now chat : Z)
    (g : Token.grant) :
  t0 <= now →
  let st := Token.authorized chat g (Token.startup t0 t1 ∅) in
  api_access (sp st) = Some (Token.access_token g)
  ∧ api_access (sp (Token.getSpotify now true st)) = None
  ∧ Workflow.new_calls st (Token.getSpotify now true st)
    = [RefreshAccessToken None].
Proof.
  intros H st. subst st. split; [done |].
  assert (Token.startup t0 t1 ∅
          = {| sp := {| api_access := None; api_refresh := None;
                        spotifyRefreshToken := None;
                        spotifyAccessToken := None;
                        spotifyTokenExpires := t0 |};
               storage := ∅; windows := ∅; log := [] |}) as -> by reflexivity.
  unfold Token.getSpotify, Token.refreshSpotifyToken, Token.authorized.
  cbn [sp spotifyTokenExpires with_sp with_storage emit
       Token.setAccessToken Token.setRefreshToken
       spotifyRefreshToken spotifyAccessToken].
  rewrite (proj2 (Z.leb_le _ _) H). cbn [orb].
  split; [done |]. by apply new_calls_app.
Qed.

(** C4: the bot starts with an empty store at time 0; an admin completes
    the authorization, which yields the access token [A] valid for an hour;
    a second later the bot needs the API object.  [getSpotify] then sends a
    refresh request, with no refresh token, and the access token of the API
    object is no longer [A] but [undefined]: the queue request goes out
    without a token. *)
Theorem token_lost_after_authorization :
  let g := {| Token.access_token := "A"; Token.refresh_token := "R";
              Token.expires_in := 3600 |} in
  let st1 := Token.spotifytoken 117441870 117441870 (Some "code") Sample.fresh in
  let st2 := Token.authorized 117441870 g st1 in
  let st3 := Token.getSpotify 2000 true st2 in
  Workflow.new_calls Sample.fresh st1 = [AuthorizationCodeGrant (Some "code")]
  ∧ api_access (sp st2) = Some "A"
  ∧ storage st2 !! "spotify_access_token" = Some "A"
  ∧ 2000 < 1000 + Token.expires_in g * 1000
  ∧ Workflow.new_calls st2 st3 = [RefreshAccessToken None]
  ∧ api_access (sp st3) = None
  ∧ Workflow.new_calls st2 (Workflow.addToSpotifyQueue 2000 Sample.uri st2)
    = [RefreshAccessToken None; AddToQueue Sample.uri None].
Proof. split_and!; reflexivity. Qed.

(** C5, as the claim states it, fails: the refresh is sent and the API
    object is handed out at once, holding the access token that was cached
    at start-up; when the refresh is answered, the new access token is kept
    in memory only, and the store still holds the old pair. *)
Lemma refresh_not_persisted :
  let st' := Token.getSpotify 4000000 true Sample.ready in
  let st'' := Token.refreshed 4000200 "A2" 3600 st' in
  spotifyTokenExpires (sp Sample.ready) <= 4000000
  ∧ Workflow.new_calls Sample.ready st' = [RefreshAccessToken (Some "R0")]
  ∧ api_access (sp Sample.ready) = Some "A1"
  ∧ api_access (sp st') = Some "A0"
  ∧ storage st' = storage Sample.ready
  ∧ api_access (sp st'') = Some "A2"
  ∧ storage st'' !! "spotify_access_token" = Some "A0"
  ∧ storage st'' !! "spotify_refresh_token" = Some "R0".
Proof. split_and!; done. Qed.

(** C5, amended: whenever [refreshSpotifyToken] finds the token expired, or
    is forced, it sets the credentials of the API object to its arguments,
    sends the refresh request and returns without waiting for the answer
    ([getSpotify] calls it with the pair cached at start-up); when the
    refresh is fulfilled later, the access token in memory and the expiry
    time are replaced; the store is written by neither step. *)
Theorem refresh_is_detached (now : Z) (r a : option string) (force : bool)
    (st : state) :
  spotifyTokenExpires (sp st) <= now ∨ force = true →
  let st' := Token.refreshSpotifyToken now r a force st in
  Workflow.new_calls st st' = [RefreshAccessToken r]
  ∧ api_access (sp st') = a
  ∧ api_refresh (sp st') = r
  ∧ storage st' = storage st
  ∧ (∀ t tok e,
        let st'' := Token.refreshed t tok e st' in
        api_access (sp st'') = Some tok
        ∧ spotifyTokenExpires (sp st'') = t + e * 1000
        ∧ storage st'' = storage st)
  ∧ Token.getSpotify now true st
    = Token.refreshSpotifyToken now (spotifyRefreshToken (sp st))
        (spotifyAccessToken (sp st)) false st.
Proof.
  intros Hexp st'. subst st'. unfold Token.refreshSpotifyToken.
  assert ((spotifyTokenExpires (sp st) <=? now) || force = true) as ->.
  { destruct Hexp as [H | ->]; [| by rewrite orb_true_r].
    by rewrite (proj2 (Z.leb_le _ _) H). }
  split_and!; try done. by apply new_calls_app.
Qed.

Lemma refresh_is_detached_witness :
  Workflow.new_calls Sample.ready
    (Token.refreshSpotifyToken 4000000 (Some "R0") (Some "A0") false
       Sample.ready)
  = [RefreshAccessToken (Some "R0")]
  ∧ storage (Token.refreshSpotifyToken 4000000 (Some "R0") (Some "A0") false
               Sample.ready)
    = storage Sample.ready.
Proof.
  destruct (refresh_is_detached 4000000 (Some "R0") (Some "A0") false
              Sample.ready) as (H1 & _ & _ & H4 & _).
  - left. vm_compute. discriminate.
  - split; [exact H1 | exact H4].
Defined.

(** * Further properties of the program *)

(** ** Who is an admin, which chat is the voting group *)

Lemma isVotingGroup_spec (id : Z) :
  isVotingGroup id = true ↔ id = -1002454626909.
Proof.
  unfold isVotingGroup, String_of_id. rewrite String.eqb_eq.
  change Config.votingGroup with (pretty (-1002454626909)).
  split; [apply (inj pretty) | by intros ->].
Qed.

Lemma isAdmin_spec (id : Z) : isAdmin id = true ↔ id = 117441870.
Proof.
  unfold isAdmin, String_of_id. simpl existsb. rewrite orb_false_r.
  rewrite String.eqb_eq.
  change "117441870" with (pretty 117441870).
  split; [apply (inj pretty) | by intros ->].
Qed.

Lemma isAdmin_other (id : Z) : id ≠ 117441870 → isAdmin id = false.
Proof.
  intros H. destruct (isAdmin id) eqn:E; [| done].
  by apply isAdmin_spec in E.
Qed.

(** X1: [isVotingGroup] holds of exactly one chat identifier, the number
    that the setting [votingGroup] spells. *)
Theorem isVotingGroup_iff (id : Z) :
  isVotingGroup id = true ↔ id = -1002454626909.
Proof. apply isVotingGroup_spec. Qed.

Lemma isVotingGroup_iff_witness : isVotingGroup (-1002454626909) = true.
Proof. by apply isVotingGroup_iff. Defined.

(** X2: [isAdmin] holds of exactly one user identifier, the one listed in
    [admins]. *)
Theorem isAdmin_iff (id : Z) : isAdmin id = true ↔ id = 117441870.
Proof. apply isAdmin_spec. Qed.

Lemma isAdmin_iff_witness : isAdmin 117441870 = true.
Proof. by apply isAdmin_iff. Defined.

(** X3: the three admin commands ([spotifylogin], [spotifytoken], [id]) do
    nothing at all for a sender other than the admin: no reply is sent, no
    grant is requested, the state stays as it is. *)
Theorem admin_commands_ignore_others (sender : Z) :
  sender ≠ 117441870 →
  ∀ chat url code st,
    Commands.spotifylogin chat sender url st = st
    ∧ Token.spotifytoken chat sender code st = st
    ∧ Commands.id chat sender st = st.
Proof.
  intros H chat url code st.
  unfold Commands.spotifylogin, Token.spotifytoken, Commands.id.
  by rewrite (isAdmin_other _ H).
Qed.

Lemma admin_commands_ignore_others_witness :
  Commands.spotifylogin 7 7 "https://accounts.spotify.com/authorize" Sample.ready
  = Sample.ready
  ∧ Token.spotifytoken 7 7 (Some "code") Sample.ready = Sample.ready
  ∧ Commands.id 7 7 Sample.ready = Sample.ready.
Proof.
  apply (admin_commands_ignore_others 7); lia.
Defined.

(** ** Formatting *)

Lemma join_cons (sep x y : string) (l : list string) :
  join sep (x :: y :: l) = x +:+ sep +:+ join sep (y :: l).
Proof. reflexivity. Qed.

(** X20: joining two non-empty lists of names one after the other is joining
    each and putting one separator between the results: [join] puts a
    separator between neighbours and none at either end. *)
Theorem join_app (sep : string) (l1 l2 : list string) :
  l1 ≠ [] → l2 ≠ [] →
  join sep (l1 ++ l2) = join sep l1 +:+ sep +:+ join sep l2.
Proof.
  intros H1 H2. induction l1 as [|x l1 IH]; [done |].
  destruct l1 as [|y l1].
  - destruct l2 as [|z l2]; [done |]. reflexivity.
  - change ((x :: y :: l1) ++ l2) with (x :: y :: (l1 ++ l2)).
    rewrite !join_cons. change (y :: l1 ++ l2) with ((y :: l1) ++ l2).
    rewrite IH by done. by rewrite !append_assoc.
Qed.

Lemma join_app_witness :
  join ", " (["A"; "B"] ++ ["C"]) = join ", " ["A"; "B"] +:+ ", " +:+ join ", " ["C"].
Proof. apply join_app; discriminate. Defined.

(** ** Frames: what the handlers leave alone *)

Section FrameFacts.
Import Workflow Bot.

Lemma frame_refl (st : state) : frame st st [].
Proof. unfold frame. by rewrite app_nil_r. Qed.

Lemma frame_trans (a b c : state) (l1 l2 : list call) :
  frame a b l1 → frame b c l2 → frame a c (l1 ++ l2).
Proof.
  intros (H1 & H2 & H3 & H4) (G1 & G2 & G3 & G4). unfold frame.
  rewrite G1, H1, G2, H2, G3, H3, G4, H4. by rewrite app_assoc.
Qed.

Lemma frame_emit (c : call) (st : state) : frame st (emit c st) [c].
Proof. done. Qed.

Lemma frame_with_windows (w : gmap Z (list Z)) (st : state) :
  frame st (with_windows w st) [].
Proof. unfold frame. simpl. by rewrite app_nil_r. Qed.

Lemma frame_getSpotify (now : Z) (st : state) :
  ∃ l, cached_refresh (spotifyRefreshToken (sp st)) l
       ∧ frame st (Token.getSpotify now true st) l
       ∧ windows (Token.getSpotify now true st) = windows st.
Proof.
  unfold Token.getSpotify, Token.refreshSpotifyToken.
  destruct (_ || _).
  - eexists [_]. split; [by right | done].
  - exists []. split; [by left |]. split; [apply frame_refl | done].
Qed.

Lemma frame_close_vote (cb : callback) (st : state) :
  frame st (close_vote cb st)
    [EditMessageText (cb_chat cb) (cb_message cb)
       ("Von " +:+ formatUser (voter cb) +:+ " abgelehnt: "
          +:+ template (cb_text cb));
     EditMessageReplyMarkup (cb_chat cb) (cb_message cb) None].
Proof. unfold frame. split; [apply close_vote_log | done]. Qed.

Lemma cached_refresh_only (r0 : option string) (l : list call) :
  cached_refresh r0 l → Forall (refreshes_only r0) l ∧ refresh_only l.
Proof.
  intros [-> | ->].
  - split; [constructor | by left].
  - split; [| right; by eexists].
    constructor; [| constructor]. by intros r [= ->].
Qed.

(** The approve handler, by its calls and its frame. *)
Lemma on_accept_frame (now now' : Z) (cb : callback) (queued : outcome unit)
    (lookup : outcome track) (st : state) (uri : string) :
  Parser.match_accept (data cb) = Some uri →
  ∃ l1 l2 tok1 tok2 id,
    cached_refresh (spotifyRefreshToken (sp st)) l1
    ∧ cached_refresh (spotifyRefreshToken (sp st)) l2
    ∧ Parser.match_track uri = Some id
    ∧ tok1 = api_access (sp (Token.getSpotify now true st))
    ∧ frame st (fst (on_accept now now' cb queued lookup st))
        (accept_calls cb uri id l1 l2 tok1 tok2 queued lookup)
    ∧ windows (fst (on_accept now now' cb queued lookup st)) = windows st.
Proof.
  intros Hm. destruct (match_accept_track _ _ Hm) as [id Hid].
  unfold on_accept, addToSpotifyQueue, resolveTrack, accept_calls. rewrite Hm.
  destruct (frame_getSpotify now st) as (l1 & Hr1 & Hf1 & Hw1).
  set (st1 := Token.getSpotify now true st) in *.
  set (st2 := emit (AddToQueue uri (api_access (sp st1))) st1).
  assert (frame st st2 (l1 ++ [AddToQueue uri (api_access (sp st1))])) as Hf2
    by (eapply frame_trans; [exact Hf1 | apply frame_emit]).
  destruct (frame_getSpotify now' st2) as (l2 & Hr2 & Hf3 & Hw3).
  assert (spotifyRefreshToken (sp st2) = spotifyRefreshToken (sp st)) as Hr0
    by apply Hf2.
  rewrite Hr0 in Hr2.
  set (st3 := Token.getSpotify now' true st2) in *.
  exists l1, l2, (api_access (sp st1)), (api_access (sp st3)), id.
  split_and!; [done | done | done | done | |].
  - destruct queued as [[]|]; [| exact Hf2].
    rewrite Hid. fold st3.
    pose proof (frame_trans _ _ _ _ _ Hf2 Hf3) as Hf4.
    pose proof (frame_trans _ _ _ _ _ Hf4
                  (frame_emit (GetTrack id (api_access (sp st3))) st3)) as Hf5.
    destruct lookup as [t|].
    + unfold formatTrackInfo. cbn [fst].
      pose proof (frame_trans _ _ _ _ _ Hf5
                    (frame_emit (Reply (cb_chat cb)
                       ("Lied zur Queue hinzugefügt: " +:+ track_name t
                          +:+ " • " +:+ join ", " (track_artists t))) _))
        as Hf6.
      pose proof (frame_trans _ _ _ _ _ Hf6 (frame_close_vote cb _)) as Hf7.
      by rewrite <- !app_assoc in Hf7.
    + cbn [fst]. by rewrite <- !app_assoc in Hf5.
  - destruct queued as [[]|]; [| by rewrite <- Hw1].
    rewrite Hid. fold st3.
    destruct lookup as [t|]; [unfold formatTrackInfo |]; cbn [fst];
      unfold close_vote; simpl; by rewrite Hw3, <- Hw1.
Qed.

(** The message handler for a request whose link was recognised. *)
Lemma handle_message_frame (now : Z) (m : message) (lookup : outcome track)
    (st : state) (u : string) :
  isVotingGroup (chat_id m) = false →
  Parser.spotifyUrlToUri (text m) = Some u →
  ∃ l id,
    cached_refresh (spotifyRefreshToken (sp st)) l
    ∧ u = "spotify:track:" +:+ id
    ∧ frame st (fst (handle_message now m lookup st))
        (request_calls m u id l
           (api_access (sp (Token.getSpotify now true st))) lookup)
    ∧ windows (fst (handle_message now m lookup st)) = windows st
    ∧ snd (handle_message now m lookup st)
      = match lookup with
        | Fulfilled _ => Returned
        | Rejected => Uncaught LookupRejected
        end.
Proof.
  intros Hchat Hu. unfold handle_message, resolveTrack, request_calls.
  rewrite Hchat, Hu.
  destruct (spotifyUrlToUri_Some _ _ Hu)
    as (s & pre & suf & id & _ & _ & Hat & ->).
  destruct Hat as (_ & _ & _ & Hid & _ & _).
  rewrite (match_track_uri id Hid).
  destruct (frame_getSpotify now st) as (l & Hr & Hf & Hw).
  set (st1 := Token.getSpotify now true st) in *.
  exists l, id. split_and!; [done | done | | |].
  - pose proof (frame_trans _ _ _ _ _ Hf
                  (frame_emit (GetTrack id (api_access (sp st1))) st1)) as Hf2.
    destruct lookup as [t|].
    + unfold formatTrackInfo. cbn [fst].
      pose proof (frame_trans _ _ _ _ _ Hf2
                    (frame_emit (vote_message (sender m)
                                   ("spotify:track:" +:+ id) t) _)) as Hf3.
      pose proof (frame_trans _ _ _ _ _ Hf3
                    (frame_emit (Reply (chat_id m)
                       (track_name t +:+ " von " +:+ join ", " (track_artists t)
                          +:+ " wurde angefragt.")) _)) as Hf4.
      by rewrite <- !app_assoc in Hf4.
    + exact Hf2.
  - destruct lookup as [t|]; [unfold formatTrackInfo |]; cbn [fst]; simpl;
      by rewrite <- Hw.
  - by destruct lookup as [t|]; [unfold formatTrackInfo |].
Qed.

End FrameFacts.

(** ** Runs of the bot *)

Section RunFacts.
Import Workflow Bot.

Lemma refreshes_only_other (r0 : option string) (c : call) :
  (∀ r, c ≠ RefreshAccessToken r) → refreshes_only r0 c.
Proof. intros H r Hc. by destruct (H r). Qed.

Lemma accept_calls_ok (r0 : option string) (cb : callback) (uri id : string)
    (l1 l2 : list call) (tok1 tok2 : option string)
    (queued : outcome unit) (lookup : outcome track) :
  cached_refresh r0 l1 → cached_refresh r0 l2 →
  Forall (refreshes_only r0)
    (accept_calls cb uri id l1 l2 tok1 tok2 queued lookup)
  ∧ count is_addToQueue
      (accept_calls cb uri id l1 l2 tok1 tok2 queued lookup) = 1%nat
  ∧ count is_sendMessage
      (accept_calls cb uri id l1 l2 tok1 tok2 queued lookup) = 0%nat.
Proof.
  intros H1 H2.
  destruct (cached_refresh_only _ _ H1) as [F1 R1].
  destruct (cached_refresh_only _ _ H2) as [F2 R2].
  split_and!.
  - unfold accept_calls. apply Forall_app. split; [done |].
    constructor; [by apply refreshes_only_other |].
    destruct queued as [[]|]; [| constructor].
    apply Forall_app. split; [done |].
    constructor; [by apply refreshes_only_other |].
    destruct lookup; repeat constructor; by apply refreshes_only_other.
  - by apply accept_calls_count.
  - destruct H1 as [-> | ->], H2 as [-> | ->];
      by destruct queued as [[]|], lookup.
Qed.

Lemma request_calls_ok (r0 : option string) (m : message) (u id : string)
    (l : list call) (tok : option string) (lookup : outcome track) :
  cached_refresh r0 l →
  Forall (refreshes_only r0) (request_calls m u id l tok lookup)
  ∧ count is_addToQueue (request_calls m u id l tok lookup) = 0%nat
  ∧ count is_sendMessage (request_calls m u id l tok lookup)
    = match lookup with Fulfilled _ => 1%nat | Rejected => 0%nat end.
Proof.
  intros H. destruct (cached_refresh_only _ _ H) as [F _].
  split_and!.
  - unfold request_calls. apply Forall_app. split; [done |].
    constructor; [by apply refreshes_only_other |].
    destruct lookup as [t|]; repeat constructor;
      apply refreshes_only_other; intros r; unfold vote_message;
      by destruct (formatTrackInfo t).
  - destruct H as [-> | ->]; destruct lookup as [t|]; try done;
      unfold request_calls, count, vote_message; simpl;
      by destruct (formatTrackInfo t).
  - destruct H as [-> | ->]; destruct lookup as [t|]; try done;
      unfold request_calls, count, vote_message; simpl;
      by destruct (formatTrackInfo t).
Qed.

Lemma step_ok_nil (e : event) (st st' : state) :
  Bot.is_accept e = false → frame st st' [] → step_ok e st st' [].
Proof.
  intros He Hf. unfold step_ok. rewrite He.
  split_and!; [done | constructor | done |].
  unfold count. simpl. destruct (is_message e); lia.
Qed.

Lemma step_ok_reply (e : event) (st st' : state) (chat : Z) (s : string) :
  Bot.is_accept e = false → frame st st' [Reply chat s] →
  step_ok e st st' [Reply chat s].
Proof.
  intros He Hf. unfold step_ok. rewrite He. split_and!; [done | | done |].
  - repeat constructor. by apply refreshes_only_other.
  - unfold count. simpl. destruct (is_message e); lia.
Qed.

Lemma on_message_step (now : Z) (m : message) (lookup : outcome track)
    (st : state) :
  ∃ l, step_ok (Message now m lookup) st
         (fst (on_message now m lookup st)) l.
Proof.
  unfold on_message.
  destruct (RateLimit.allow _ _ _ _) as [[] w].
  - unfold handle_message.
    destruct (isVotingGroup (chat_id m)) eqn:Hv.
    + exists []. apply step_ok_nil; [done | apply frame_with_windows].
    + destruct (Parser.spotifyUrlToUri (text m)) as [u|] eqn:Hu.
      * destruct (handle_message_frame now m lookup (with_windows w st) u Hv Hu)
          as (l & id & Hr & _ & Hf & _ & _).
        unfold handle_message in Hf. rewrite Hv, Hu in Hf.
        eexists. unfold step_ok.
        destruct (request_calls_ok _ m u id l
                    (api_access (sp (Token.getSpotify now true
                                       (with_windows w st)))) lookup Hr)
          as (F & Ca & Cs).
        split_and!; [exact Hf | exact F | exact Ca |].
        rewrite Cs. simpl. destruct lookup; lia.
      * eexists. by apply step_ok_reply.
  - eexists. by apply step_ok_reply.
Qed.

Lemma on_vote_step (v : vote) (st : state) :
  ∃ l, step_ok (Vote v) st (fst (on_vote v st)) l.
Proof.
  destruct v as [now now' cb queued lookup | cb]; simpl on_vote.
  - destruct (Parser.match_accept (data cb)) as [uri|] eqn:Hm.
    + destruct (on_accept_frame now now' cb queued lookup st uri Hm)
        as (l1 & l2 & tok1 & tok2 & id & H1 & H2 & _ & _ & Hf & _).
      destruct (accept_calls_ok _ cb uri id l1 l2 tok1 tok2 queued lookup H1 H2)
        as (F & Ca & Cs).
      eexists. unfold step_ok. simpl Bot.is_accept. rewrite Hm.
      split_and!; [exact Hf | exact F | exact Ca |]. rewrite Cs. simpl. lia.
    + unfold on_accept. rewrite Hm. exists [].
      apply step_ok_nil; [simpl; by rewrite Hm | apply frame_refl].
  - unfold on_decline. destruct (String.eqb _ _).
    + eexists. unfold step_ok. split_and!; [apply frame_close_vote | | done |].
      * repeat constructor; by apply refreshes_only_other.
      * unfold count. simpl. lia.
    + exists []. apply step_ok_nil; [done | apply frame_refl].
Qed.

(** Every event other than a completed authorization keeps the frame. *)
Lemma step_frame (e : event) (st : state) :
  is_authorized e = false → ∃ l, step_ok e st (step e st) l.
Proof.
  destruct e as [now m lookup | v | chat | chat who url | chat who code
                 | chat g | chat | chat who | now a x | ];
    intros Ha; try done; simpl step.
  - apply on_message_step.
  - apply on_vote_step.
  - eexists. by apply step_ok_reply.
  - unfold Commands.spotifylogin. destruct (isAdmin who).
    + eexists. by apply step_ok_reply.
    + exists []. apply step_ok_nil; [done | apply frame_refl].
  - unfold Token.spotifytoken. destruct (isAdmin who).
    + eexists [_]. unfold step_ok.
      split_and!; [done | | done | unfold count; simpl; lia].
      repeat constructor. by apply refreshes_only_other.
    + exists []. apply step_ok_nil; [done | apply frame_refl].
  - eexists. by apply step_ok_reply.
  - unfold Commands.id. destruct (isAdmin who).
    + eexists. by apply step_ok_reply.
    + exists []. apply step_ok_nil; [done | apply frame_refl].
  - exists []. apply step_ok_nil; [done |]. unfold frame. simpl.
    by rewrite app_nil_r.
  - exists []. apply step_ok_nil; [done | apply frame_refl].
Qed.

Lemma step_run_ok (e : event) (st : state) :
  ∃ l, run_ok [e] st (step e st) l.
Proof.
  destruct (is_authorized e) eqn:Ha.
  - destruct e as [| | | | | chat g | | | |]; try done. simpl step.
    exists [Reply chat ("Authorized. The token expires in "
                        +:+ pretty (Token.expires_in g));
            Reply chat "Login finished and saved"].
    unfold run_ok, Token.authorized.
    cbn [log sp storage emit with_sp with_storage spotifyRefreshToken
         spotifyAccessToken Token.setAccessToken Token.setRefreshToken].
    split_and!; try done; try (by rewrite <- app_assoc);
      try (repeat constructor; by apply refreshes_only_other).
    intros k H1 H2. by rewrite !lookup_insert_ne.
  - destruct (step_frame e st Ha) as (l & (Hl & Hr & Hc & Hs) & F & Ca & Cs).
    exists l. unfold run_ok. simpl. rewrite Ha.
    split_and!; try done.
    + rewrite Ca. by destruct (Bot.is_accept e).
    + destruct (is_message e); simpl in *; lia.
    + intros k _ _. by rewrite Hs.
Qed.

Lemma run_ok_trans (es1 es2 : list event) (a b c : state)
    (l1 l2 : list call) :
  run_ok es1 a b l1 → run_ok es2 b c l2 → run_ok (es1 ++ es2) a c (l1 ++ l2).
Proof.
  intros (H1 & H2 & H3 & H4 & H5 & H6 & H7 & H8)
         (G1 & G2 & G3 & G4 & G5 & G6 & G7 & G8).
  unfold run_ok. rewrite !List.filter_app, !length_app.
  unfold count in *. rewrite !List.filter_app, !length_app.
  split_and!.
  - by rewrite G1, H1, app_assoc.
  - congruence.
  - congruence.
  - apply Forall_app. split; [done |]. by rewrite <- H2.
  - lia.
  - lia.
  - intros Hn. apply app_eq_nil in Hn as [Hn1 Hn2].
    by rewrite (G7 Hn2), (H7 Hn1).
  - intros k K1 K2. by rewrite (G8 k K1 K2), (H8 k K1 K2).
Qed.

Lemma run_run_ok (es : list event) (st : state) :
  ∃ l, run_ok es st (run es st) l.
Proof.
  revert st. induction es as [|e es IH]; intros st.
  - exists []. unfold run_ok. simpl. rewrite app_nil_r.
    by split_and!.
  - destruct (step_run_ok e st) as (l1 & H1).
    destruct (IH (step e st)) as (l2 & H2).
    exists (l1 ++ l2). apply (run_ok_trans [e] es _ _ _ _ _ H1 H2).
Qed.

End RunFacts.

(** X7: in any run of the bot the cached pair [spotifyRefreshToken] /
    [spotifyAccessToken] stays what it was at the start, whatever is
    authorized or refreshed in between, and every refresh request that is
    sent carries that cached refresh token. *)
Theorem cached_pair_never_updated (es : list Bot.event) (st : state) :
  spotifyRefreshToken (sp (Bot.run es st)) = spotifyRefreshToken (sp st)
  ∧ spotifyAccessToken (sp (Bot.run es st)) = spotifyAccessToken (sp st)
  ∧ ∀ r, RefreshAccessToken r ∈ Workflow.new_calls st (Bot.run es st) →
         r = spotifyRefreshToken (sp st).
Proof.
  destruct (run_run_ok es st) as (l & Hl & Hr & Ha & F & _).
  split_and!; [done | done |]. intros r Hin.
  rewrite (new_calls_app _ _ _ Hl) in Hin.
  rewrite Forall_forall in F. by apply (F _ Hin r).
Qed.

Lemma cached_pair_never_updated_witness :
  Some "R0" = spotifyRefreshToken (sp Sample.ready).
Proof.
  apply (proj2 (proj2 (cached_pair_never_updated
                         [Bot.Vote (Workflow.Accept 4000000 4000100
                                      (Sample.tap Sample.ada
                                         ("accept:" +:+ Sample.uri)
                                         Sample.vote_text)
                                      Rejected Rejected)]
                         Sample.ready))).
  vm_compute. left.
Defined.

(** X8: the store is written by the completed authorization only: a run
    without one leaves the store as it was, and any run leaves every key
    other than the two credential keys as it was. *)
Theorem store_written_by_authorization_only (es : list Bot.event)
    (st : state) :
  (List.filter Bot.is_authorized es = [] →
   storage (Bot.run es st) = storage st)
  ∧ ∀ k, k ≠ "spotify_refresh_token" → k ≠ "spotify_access_token" →
         storage (Bot.run es st) !! k = storage st !! k.
Proof.
  destruct (run_run_ok es st) as (l & _ & _ & _ & _ & _ & _ & H7 & H8).
  by split.
Qed.

Lemma store_written_by_authorization_only_witness :
  storage (Bot.run [Bot.Message 50000 Sample.request (Fulfilled Sample.song);
                    Bot.Refreshed 60000 "A2" 3600] Sample.ready)
  = storage Sample.ready.
Proof.
  apply (proj1 (store_written_by_authorization_only
                  [Bot.Message 50000 Sample.request (Fulfilled Sample.song);
                   Bot.Refreshed 60000 "A2" 3600] Sample.ready)).
  reflexivity.
Defined.

(** X9: in any run of the bot, queue requests come from approve events
    only, one for each, and vote messages from inbound messages only, at
    most one for each; commands, declines and settled promises add none. *)
Theorem queue_requests_and_vote_messages (es : list Bot.event) (st : state) :
  Workflow.count Workflow.is_addToQueue
    (Workflow.new_calls st (Bot.run es st))
  = length (List.filter Bot.is_accept es)
  ∧ (Workflow.count Workflow.is_sendMessage
       (Workflow.new_calls st (Bot.run es st))
     <= length (List.filter Bot.is_message es))%nat.
Proof.
  destruct (run_run_ok es st) as (l & Hl & _ & _ & _ & Ca & Cs & _).
  by rewrite (new_calls_app _ _ _ Hl).
Qed.

(** ** Tokens: start-up, authorization, refresh *)

(** X4: a completed authorization puts the granted pair on the API object
    and under the two keys of the store, and a later start from that store
    loads the pair into the cached globals and sends one refresh request,
    for the granted refresh token. *)
Theorem authorization_survives_restart (chat : Z) (g : Token.grant)
    (st : state) (t0 t1 : Z) :
  t0 <= t1 →
  let st' := Token.authorized chat g st in
  let boot := Token.startup t0 t1 (storage st') in
  storage st' !! "spotify_access_token" = Some (Token.access_token g)
  ∧ storage st' !! "spotify_refresh_token" = Some (Token.refresh_token g)
  ∧ api_access (sp st') = Some (Token.access_token g)
  ∧ api_refresh (sp st') = Some (Token.refresh_token g)
  ∧ spotifyAccessToken (sp boot) = Some (Token.access_token g)
  ∧ spotifyRefreshToken (sp boot) = Some (Token.refresh_token g)
  ∧ api_access (sp boot) = Some (Token.access_token g)
  ∧ log boot = [RefreshAccessToken (Some (Token.refresh_token g))].
Proof.
  intros Ht st' boot.
  assert (storage st' !! "spotify_access_token" = Some (Token.access_token g))
    as Ha by apply lookup_insert_eq.
  assert (storage st' !! "spotify_refresh_token" = Some (Token.refresh_token g))
    as Hr.
  { subst st'. unfold Token.authorized. cbn [storage emit with_storage with_sp].
    rewrite lookup_insert_ne by done. apply lookup_insert_eq. }
  split_and!; [done | done | done | done | | | |];
    subst boot; unfold Token.startup; rewrite Ha, Hr;
    unfold Token.refreshSpotifyToken;
    cbn [sp spotifyTokenExpires]; rewrite (proj2 (Z.leb_le _ _) Ht); done.
Qed.

Lemma authorization_survives_restart_witness :
  log (Token.startup 5000 5001
         (storage (Token.authorized 117441870
                     {| Token.access_token := "A"; Token.refresh_token := "R";
                        Token.expires_in := 3600 |} Sample.fresh)))
  = [RefreshAccessToken (Some "R")].
Proof.
  apply (authorization_survives_restart 117441870
           {| Token.access_token := "A"; Token.refresh_token := "R";
              Token.expires_in := 3600 |} Sample.fresh 5000 5001).
  lia.
Defined.


(** X6: after a refresh was answered at time [t] with a token valid for
    [e] seconds, [getSpotify] changes nothing and sends nothing strictly
    before [t + 1000 e], and the queue request carries the refreshed token;
    from [t + 1000 e] on it sends a refresh request for the cached refresh
    token and resets the access token of the API object to the cached
    one. *)
Theorem refreshed_token_until_expiry (st : state) (t : Z) (tok : string)
    (e now : Z) :
  let st1 := Token.refreshed t tok e st in
  (now < t + e * 1000 →
   Token.getSpotify now true st1 = st1
   ∧ ∀ uri, Workflow.new_calls st1 (Workflow.addToSpotifyQueue now uri st1)
            = [AddToQueue uri (Some tok)])
  ∧ (t + e * 1000 <= now →
     Workflow.new_calls st1 (Token.getSpotify now true st1)
     = [RefreshAccessToken (spotifyRefreshToken (sp st))]
     ∧ api_access (sp (Token.getSpotify now true st1))
       = spotifyAccessToken (sp st)).
Proof.
  intros st1. split.
  - intros H.
    assert (Token.getSpotify now true st1 = st1) as Hg
      by (by apply getSpotify_before_expiry).
    split; [done |]. intros uri. unfold Workflow.addToSpotifyQueue.
    rewrite Hg. by apply new_calls_app.
  - intros H. unfold Token.getSpotify, Token.refreshSpotifyToken.
    subst st1. cbn [Token.refreshed sp with_sp Token.setExpires
                    Token.setAccessToken spotifyTokenExpires
                    spotifyRefreshToken spotifyAccessToken].
    rewrite (proj2 (Z.leb_le _ _) H). by split; [apply new_calls_app |].
Qed.

Lemma refreshed_token_until_expiry_witness :
  Token.getSpotify 50000 true Sample.ready = Sample.ready
  ∧ Workflow.new_calls Sample.ready (Token.getSpotify 3600010 true Sample.ready)
    = [RefreshAccessToken (Some "R0")].
Proof.
  pose proof (refreshed_token_until_expiry
                (Token.startup 0 0
                   (<["spotify_access_token" := "A0"]>
                      (<["spotify_refresh_token" := "R0"]> ∅)))
                10 "A1" 3600) as H.
  split.
  - apply (H 50000). lia.
  - apply (H 3600010). lia.
Defined.

(** ** Requests and votes, end to end *)


(** X11: a request whose link is recognised and whose lookup is fulfilled
    makes the handler send, after at most a refresh request, the lookup for
    the identifier of the link, then one vote message to the voting group
    (thread 637) whose approve button carries ["accept:"] followed by the
    URI, and then the acknowledgment to the requester; the handler
    returns. *)
Theorem request_is_posted (now : Z) (m : Workflow.message) (t : track)
    (st : state) (u : string) :
  isVotingGroup (Workflow.chat_id m) = false →
  Parser.spotifyUrlToUri (Workflow.text m) = Some u →
  ∃ l id tok,
    Workflow.refresh_only l
    ∧ u = "spotify:track:" +:+ id
    ∧ snd (Workflow.handle_message now m (Fulfilled t) st) = Returned
    ∧ Workflow.new_calls st
        (fst (Workflow.handle_message now m (Fulfilled t) st))
      = l ++ [GetTrack id tok;
              SendMessage "-1002454626909" (Some "637")
                ("Anfrage von " +:+ formatUser (Workflow.sender m)
                   +:+ String "010" "" +:+ track_name t +:+ " • "
                   +:+ join ", " (track_artists t))
                {| accept_data := "accept:" +:+ u;
                   decline_data := "decline";
                   url_button := track_url t |};
              Reply (Workflow.chat_id m)
                (track_name t +:+ " von " +:+ join ", " (track_artists t)
                   +:+ " wurde angefragt.")].
Proof.
  intros Hv Hu.
  destruct (handle_message_frame now m (Fulfilled t) st u Hv Hu)
    as (l & id & Hr & -> & (Hl & _) & _ & Hc).
  exists l, id, (api_access (sp (Token.getSpotify now true st))).
  split_and!; [by apply (cached_refresh_only _ _ Hr) | done | done |].
  by rewrite (new_calls_app _ _ _ Hl).
Qed.

Lemma request_is_posted_witness :
  ∃ l id tok,
    Workflow.refresh_only l
    ∧ Sample.uri = "spotify:track:" +:+ id
    ∧ snd (Workflow.handle_message 50000 Sample.request
             (Fulfilled Sample.song) Sample.ready) = Returned
    ∧ Workflow.new_calls Sample.ready
        (fst (Workflow.handle_message 50000 Sample.request
                (Fulfilled Sample.song) Sample.ready))
      = l ++ [GetTrack id tok;
              SendMessage "-1002454626909" (Some "637")
                ("Anfrage von " +:+ formatUser Sample.ada
                   +:+ String "010" "" +:+ "Song" +:+ " • "
                   +:+ join ", " ["A"; "B"])
                {| accept_data := "accept:" +:+ Sample.uri;
                   decline_data := "decline";
                   url_button :=
                     "https://open.spotify.com/track/5hvIZF56tE8sAwMA9cKmQQ" |};
              Reply 7 ("Song" +:+ " von " +:+ join ", " ["A"; "B"]
                         +:+ " wurde angefragt.")].
Proof.
  apply (request_is_posted 50000 Sample.request Sample.song Sample.ready
           Sample.uri); reflexivity.
Defined.

Lemma match_accept_spec (d u : string) :
  Parser.match_accept d = Some u
  ↔ ∃ w r, UrlSpec.word_id w ∧ UrlSpec.ends_id r = true
           ∧ u = "spotify:track:" +:+ w
           ∧ d = "accept:" +:+ u +:+ r.
Proof.
  unfold Parser.match_accept. split.
  - intros H.
    destruct (Parser.strip_prefix "accept:" d) as [x|] eqn:E1; [| done].
    destruct (Parser.strip_prefix "spotify:track:" x) as [y|] eqn:E2; [| done].
    destruct (Parser.capture_word y) as [w|] eqn:E3; [| done].
    injection H as <-.
    apply strip_prefix_Some in E1 as ->. apply strip_prefix_Some in E2 as ->.
    apply capture_word_Some in E3 as (r & -> & Hw & Hr).
    exists w, r. split_and!; [done | done | done |].
    by rewrite !append_assoc.
  - intros (w & r & Hw & Hr & -> & ->).
    rewrite strip_prefix_app, append_assoc, strip_prefix_app.
    by rewrite capture_word_app.
Qed.

(** X12: the pattern of the approve action matches a callback data string
    exactly when the string is ["accept:spotify:track:"], one or more
    identifier characters, and then nothing or text that starts with a
    character that is no identifier character; the URI that the handler
    takes from it is the part after ["accept:"] up to the end of the
    identifier. *)
Theorem match_accept_iff (d u : string) :
  Parser.match_accept d = Some u
  ↔ ∃ w r, UrlSpec.word_id w ∧ UrlSpec.ends_id r = true
           ∧ u = "spotify:track:" +:+ w
           ∧ d = "accept:" +:+ u +:+ r.
Proof. apply match_accept_spec. Qed.

Lemma match_accept_iff_witness :
  Parser.match_accept "accept:spotify:track:abc?x" = Some "spotify:track:abc".
Proof.
  apply match_accept_iff. exists "abc", "?x". by split_and!.
Defined.

Lemma vote_message_accept_data (requester : user) (u : string) (t : track) :
  accept_data <$> Workflow.keyboard_of (Workflow.vote_message requester u t)
  = Some ("accept:" +:+ u).
Proof. unfold Workflow.vote_message. by destruct (formatTrackInfo t). Qed.

(** X13: tapping the approve button of the vote message that was built for
    a parsed link sends the queue request for exactly the URI of that link,
    after at most a refresh request, and the lookup that follows asks for
    the identifier of that link. *)
Theorem approve_queues_requested_track (v : jsval) (u : string)
    (requester : user) (t : track) (cb : Workflow.callback)
    (now now' : Z) (queued : outcome unit) (lookup : outcome track)
    (st : state) :
  Parser.spotifyUrlToUri v = Some u →
  accept_data <$> Workflow.keyboard_of (Workflow.vote_message requester u t)
  = Some (Workflow.data cb) →
  ∃ l1 l2 tok1 tok2 id,
    Workflow.refresh_only l1 ∧ Workflow.refresh_only l2
    ∧ u = "spotify:track:" +:+ id
    ∧ Workflow.new_calls st
        (fst (Workflow.on_accept now now' cb queued lookup st))
      = Workflow.accept_calls cb u id l1 l2 tok1 tok2 queued lookup.
Proof.
  intros Hu Hk. rewrite vote_message_accept_data in Hk. injection Hk as Hk.
  destruct (spotifyUrlToUri_Some _ _ Hu)
    as (s & pre & suf & id & _ & _ & Hat & ->).
  destruct Hat as (_ & _ & _ & Hw & _ & _).
  assert (Parser.match_accept (Workflow.data cb)
          = Some ("spotify:track:" +:+ id)) as Hm.
  { rewrite <- Hk. apply match_accept_spec. exists id, "".
    split_and!; [done | done | done |]. by rewrite append_nil_r. }
  destruct (on_accept_calls now now' cb queued lookup st _ Hm)
    as (l1 & l2 & tok1 & tok2 & id' & H1 & H2 & Hid & Hl).
  rewrite (match_track_uri id Hw) in Hid. injection Hid as <-.
  exists l1, l2, tok1, tok2, id. split_and!; [done | done | done |].
  by apply new_calls_app.
Qed.

Lemma approve_queues_requested_track_witness :
  ∃ l1 l2 tok1 tok2 id,
    Workflow.refresh_only l1 ∧ Workflow.refresh_only l2
    ∧ Sample.uri = "spotify:track:" +:+ id
    ∧ Workflow.new_calls Sample.ready
        (fst (Workflow.on_accept 60000 60100
                (Sample.tap Sample.bob ("accept:" +:+ Sample.uri)
                   Sample.vote_text)
                (Fulfilled ()) Rejected Sample.ready))
      = Workflow.accept_calls
          (Sample.tap Sample.bob ("accept:" +:+ Sample.uri) Sample.vote_text)
          Sample.uri id l1 l2 tok1 tok2 (Fulfilled ()) Rejected.
Proof.
  apply (approve_queues_requested_track (Workflow.text Sample.request)
           Sample.uri Sample.ada Sample.song); reflexivity.
Defined.

(** X14: whatever callback data reaches the vote handlers, every queue
    request that they send is for a URI of the form [spotify:track:]
    followed by one or more identifier characters. *)
Theorem only_track_uris_are_queued (vs : list Workflow.vote) (st : state)
    (uri : string) (tok : option string) :
  AddToQueue uri tok ∈ Workflow.new_calls st (Workflow.on_votes vs st) →
  ∃ w, UrlSpec.word_id w ∧ uri = "spotify:track:" +:+ w.
Proof.
  assert (∀ v st0, ∃ l,
             log (fst (Workflow.on_vote v st0)) = log st0 ++ l
             ∧ Forall Bot.queues_track_uri l) as Hstep.
  { intros [now now' cb queued lookup | cb] st0; simpl.
    - destruct (Parser.match_accept (Workflow.data cb)) as [u|] eqn:Hm.
      + destruct (on_accept_calls now now' cb queued lookup st0 u Hm)
          as (l1 & l2 & tok1 & tok2 & id & H1 & H2 & _ & Hl).
        eexists. split; [exact Hl |].
        apply match_accept_spec in Hm as (w & r & Hw & _ & -> & _).
        unfold Workflow.accept_calls.
        destruct H1 as [-> | [r1 ->]], H2 as [-> | [r2 ->]];
          destruct queued as [[]|], lookup;
          repeat constructor; intros x y [=]; subst; by exists w.
      + unfold Workflow.on_accept. rewrite Hm. exists [].
        by rewrite app_nil_r.
    - unfold Workflow.on_decline. destruct (String.eqb _ _); cbn [fst].
      + rewrite close_vote_log. eexists. split; [done |].
        repeat constructor; by intros x y [=].
      + exists []. by rewrite app_nil_r. }
  assert (∀ vs0 st0, ∃ l,
             log (Workflow.on_votes vs0 st0) = log st0 ++ l
             ∧ Forall Bot.queues_track_uri l) as Hrun.
  { induction vs0 as [|v vs0 IH]; intros st0.
    - exists []. by rewrite app_nil_r.
    - simpl. destruct (Hstep v st0) as (l1 & Hl1 & F1).
      destruct (IH (fst (Workflow.on_vote v st0))) as (l2 & Hl2 & F2).
      exists (l1 ++ l2). rewrite Hl2, Hl1, <- app_assoc.
      split; [done | by apply Forall_app]. }
  destruct (Hrun vs st) as (l & Hl & F). rewrite (new_calls_app _ _ _ Hl).
  intros Hin. rewrite Forall_forall in F. by apply (F _ Hin uri tok).
Qed.

Lemma only_track_uris_are_queued_witness :
  ∃ w, UrlSpec.word_id w ∧ Sample.uri = "spotify:track:" +:+ w.
Proof.
  apply (only_track_uris_are_queued
           [Workflow.Accept 60000 60100
              (Sample.tap Sample.ada ("accept:" +:+ Sample.uri +:+ "?x")
                 Sample.vote_text) Rejected Rejected]
           Sample.ready Sample.uri (Some "A1")).
  vm_compute. left.
Defined.

(** X15: when the queue request of an approval is rejected, the handler has
    sent the queue request (after at most a refresh request) and nothing
    else: no confirmation, no lookup, and the vote message keeps its text
    and its keyboard; the rejection is not caught. *)
Theorem rejected_queue_request (now now' : Z) (cb : Workflow.callback)
    (lookup : outcome track) (st : state) (uri : string) :
  Parser.match_accept (Workflow.data cb) = Some uri →
  snd (Workflow.on_accept now now' cb Rejected lookup st)
  = Uncaught QueueRejected
  ∧ ∃ l, Workflow.refresh_only l
         ∧ Workflow.new_calls st
             (fst (Workflow.on_accept now now' cb Rejected lookup st))
           = l ++ [AddToQueue uri
                     (api_access (sp (Token.getSpotify now true st)))].
Proof.
  intros Hm. split.
  - unfold Workflow.on_accept. by rewrite Hm.
  - destruct (on_accept_frame now now' cb Rejected lookup st uri Hm)
      as (l1 & l2 & tok1 & tok2 & id & H1 & _ & _ & -> & (Hl & _) & _).
    exists l1. split; [by apply (cached_refresh_only _ _ H1) |].
    by apply new_calls_app.
Qed.

Lemma rejected_queue_request_witness :
  snd (Workflow.on_accept 60000 60100
         (Sample.tap Sample.ada ("accept:" +:+ Sample.uri) Sample.vote_text)
         Rejected Rejected Sample.ready)
  = Uncaught QueueRejected.
Proof.
  apply (rejected_queue_request 60000 60100
           (Sample.tap Sample.ada ("accept:" +:+ Sample.uri) Sample.vote_text)
           Rejected Sample.ready Sample.uri).
  reflexivity.
Defined.

(** ** The expiry time *)

Lemma step_expires (e : Bot.event) (st : state) :
  Bot.is_refreshed e = false →
  spotifyTokenExpires (sp (Bot.step e st)) = spotifyTokenExpires (sp st).
Proof.
  destruct e as [now m lookup | v | chat | chat who url | chat who code
                 | chat g | chat | chat who | now a x | ];
    intros Hr; try done; simpl Bot.step.
  - unfold Workflow.on_message, Workflow.handle_message,
      Workflow.resolveTrack, Token.getSpotify, Token.refreshSpotifyToken.
    repeat case_match; simplify_eq; done.
  - destruct v as [now now' cb queued lookup | cb]; simpl Workflow.on_vote;
      unfold Workflow.on_accept, Workflow.on_decline, Workflow.close_vote,
        Workflow.addToSpotifyQueue, Workflow.resolveTrack, Token.getSpotify,
        Token.refreshSpotifyToken;
      repeat case_match; simplify_eq; done.
  - unfold Commands.spotifylogin. by case_match.
  - unfold Token.spotifytoken. by case_match.
  - unfold Commands.id. by case_match.
Qed.

(** X16: the expiry time [spotifyTokenExpires] is moved by the fulfilment
    of a refresh only: a run in which no refresh is fulfilled, whatever is
    authorized, requested or voted in it, ends with the expiry time it
    started with. *)
Theorem expiry_moved_by_refresh_only (es : list Bot.event) (st : state) :
  List.filter Bot.is_refreshed es = [] →
  spotifyTokenExpires (sp (Bot.run es st)) = spotifyTokenExpires (sp st).
Proof.
  revert st. induction es as [|e es IH]; intros st Hn; [done |].
  simpl in Hn |- *. destruct (Bot.is_refreshed e) eqn:He; [done |].
  by rewrite (IH _ Hn), step_expires.
Qed.

Lemma expiry_moved_by_refresh_only_witness :
  spotifyTokenExpires
    (sp (Bot.run [Bot.SpotifyToken 117441870 117441870 (Some "code");
                  Bot.Authorized 117441870
                    {| Token.access_token := "A"; Token.refresh_token := "R";
                       Token.expires_in := 3600 |};
                  Bot.Message 2000 Sample.request (Fulfilled Sample.song)]
           Sample.fresh))
  = spotifyTokenExpires (sp Sample.fresh).
Proof. apply expiry_moved_by_refresh_only. reflexivity. Defined.



(** ** The parser, read backwards *)

Lemma regex_search_leftmost (s w : string) :
  Parser.regex_search s = Some w →
  ∃ pre suf, s = pre +:+ suf ∧ UrlSpec.url_at suf w
             ∧ UrlSpec.no_url_before (String.length pre) s.
Proof.
  induction s as [|c s IH]; rewrite regex_search_eq; intros H.
  - destruct (Parser.match_here "") eqn:E; [| done]. injection H as ->.
    exists "", "". split_and!; [done | by apply match_here_Some |].
    intros p t i _ Hlen. simpl in Hlen. lia.
  - destruct (Parser.match_here (String c s)) eqn:E.
    + injection H as ->. exists "", (String c s).
      split_and!; [done | by apply match_here_Some |].
      intros p t i _ Hlen. simpl in Hlen. lia.
    + destruct (IH H) as (p & t & -> & Hu & Hno).
      exists (String c p), t. split_and!; [by rewrite append_cons | done |].
      intros p' t' i Heq Hlen Hat. destruct p' as [|c' p'].
      * rewrite append_nil in Heq. subst t'.
        by rewrite (match_here_url _ _ Hat) in E.
      * rewrite append_cons in Heq. injection Heq as -> Heq.
        apply (Hno p' t' i Heq); [simpl in Hlen; lia | done].
Qed.

(** X18: whenever [spotifyUrlToUri] returns a URI, the input is a string
    that contains the web URL of a track, the URI is [spotify:track:]
    followed by the identifier of that URL, and no track URL starts earlier
    in the input: the result is always read off the leftmost track URL. *)
Theorem spotifyUrlToUri_leftmost (v : jsval) (u : string) :
  Parser.spotifyUrlToUri v = Some u →
  ∃ pre suf id,
    v = str (pre +:+ suf) ∧ UrlSpec.url_at suf id
    ∧ UrlSpec.no_url_before (String.length pre) (pre +:+ suf)
    ∧ u = "spotify:track:" +:+ id.
Proof.
  destruct v as [| |s]; [done | done |].
  rewrite spotifyUrlToUri_str.
  destruct (Parser.regex_search s) as [id|] eqn:E; [| done].
  intros [= <-]. apply regex_search_leftmost in E as (pre & suf & -> & Hu & Hno).
  by exists pre, suf, id.
Qed.

Lemma spotifyUrlToUri_leftmost_witness :
  ∃ pre suf id,
    str "a https://open.spotify.com/track/x1 http://open.spotify.com/track/y2"
    = str (pre +:+ suf) ∧ UrlSpec.url_at suf id
    ∧ UrlSpec.no_url_before (String.length pre) (pre +:+ suf)
    ∧ "spotify:track:x1" = "spotify:track:" +:+ id.
Proof.
  apply (spotifyUrlToUri_leftmost
           (str "a https://open.spotify.com/track/x1 http://open.spotify.com/track/y2")).
  reflexivity.
Defined.

(** ** No loop through the voting group *)

(** X19: the chat to which the bot posts a vote message is a chat whose
    messages the message handler ignores: an inbound message from the chat
    that a vote message was sent to causes no call and leaves the state as
    it is. *)
Theorem vote_message_chat_is_ignored (requester : user) (u : string)
    (t : track) (chat : string) (thread : option string) (body : string)
    (k : keyboard) (now : Z) (m : Workflow.message) (lookup : outcome track)
    (st : state) :
  Workflow.vote_message requester u t = SendMessage chat thread body k →
  String_of_id (Workflow.chat_id m) = chat →
  Workflow.handle_message now m lookup st = (st, Returned).
Proof.
  unfold Workflow.vote_message. destruct (formatTrackInfo t).
  intros [= <- _ _ _] Hc. apply handle_message_voting_group.
  unfold isVotingGroup. by rewrite Hc, String.eqb_refl.
Qed.

Lemma vote_message_chat_is_ignored_witness :
  Workflow.handle_message 50000 Sample.chatter (Fulfilled Sample.song)
    Sample.ready
  = (Sample.ready, Returned).
Proof.
  eapply (vote_message_chat_is_ignored Sample.ada Sample.uri Sample.song);
    reflexivity.
Defined.

(** ** The guard of the parser *)

Lemma Js_spotifyUrlToUri_returns (v : jsval) :
  Js.spotifyUrlToUri v = Js.Ok (Parser.spotifyUrlToUri v).
Proof.
  destruct v as [| |s]; [done | done |].
  unfold Js.spotifyUrlToUri, Parser.spotifyUrlToUri, Js.String_match.
  destruct (truthy (str s)) eqn:E; simpl negb; cbv iota; [| done].
  by destruct (Parser.regex_search s).
Qed.

Lemma Js_handle_message_returns (now : Z) (m : Workflow.message)
    (lookup : outcome track) (st : state) :
  Js.handle_message now m lookup st
  = Js.Ok (Workflow.handle_message now m lookup st).
Proof.
  unfold Js.handle_message. rewrite Js_spotifyUrlToUri_returns.
  destruct (isVotingGroup (Workflow.chat_id m)) eqn:E; [| done].
  by rewrite handle_message_voting_group.
Qed.

(** C9: [url.match] throws on [undefined] and on [null], and the guard
    [if (!url)] of [spotifyUrlToUri] returns before it: on absent text
    ([undefined], [null] or the empty string) the function returns
    [undefined] and throws nothing; the message handler, in a chat other
    than the voting group, then answers with the format-help reply and
    returns, and so does the whole route when its limiter lets the update
    through. *)
Theorem spotifyUrlToUri_absent (v : jsval) :
  v = undefined ∨ v = null ∨ v = str "" →
  Js.spotifyUrlToUri v = Js.Ok None
  ∧ (v ≠ str "" → Js.String_match v = Js.Throw Js.TypeError)
  ∧ Parser.spotifyUrlToUri v = None
  ∧ ∀ now m lookup st,
      Workflow.text m = v → isVotingGroup (Workflow.chat_id m) = false →
      Js.handle_message now m lookup st
      = Js.Ok (emit (Reply (Workflow.chat_id m) Workflow.help_reply) st,
               Returned)
      ∧ Workflow.handle_message now m lookup st
        = (emit (Reply (Workflow.chat_id m) Workflow.help_reply) st, Returned)
      ∧ (fst (RateLimit.allow RateLimit.trackLimitConfig
                (user_id (Workflow.sender m)) now (windows st)) = true →
         ∃ w, Workflow.on_message now m lookup st
              = (emit (Reply (Workflow.chat_id m) Workflow.help_reply)
                   (with_windows w st), Returned)).
Proof.
  intros Hv.
  assert (Js.spotifyUrlToUri v = Js.Ok None) as Hjs.
  { destruct Hv as [-> | [-> | ->]]; unfold Js.spotifyUrlToUri;
      by (simpl truthy; simpl negb; cbv iota). }
  assert (Parser.spotifyUrlToUri v = None) as Hnone
    by (by destruct Hv as [-> | [-> | ->]]).
  split_and!; [done | | done |].
  - intros Hne. by destruct Hv as [-> | [-> | ->]].
  - intros now m lookup st Ht Hchat.
    assert (∀ st', Workflow.handle_message now m lookup st'
                   = (emit (Reply (Workflow.chat_id m) Workflow.help_reply) st',
                      Returned)) as Hh.
    { intros st'. unfold Workflow.handle_message. by rewrite Hchat, Ht, Hnone. }
    split_and!; [| apply Hh |].
    + unfold Js.handle_message. by rewrite Hchat, Ht, Hjs, Hh.
    + intros Hok. unfold Workflow.on_message.
      destruct (RateLimit.allow _ _ _ _) as [ok w]. simpl in Hok. subst ok.
      exists w. apply Hh.
Qed.

Lemma spotifyUrlToUri_absent_witness :
  Js.spotifyUrlToUri undefined = Js.Ok None
  ∧ Js.String_match undefined = Js.Throw Js.TypeError
  ∧ Js.handle_message 1000
      {| Workflow.chat_id := 42;
         Workflow.sender := {| user_id := 7; first_name := "Ada";
                               username := None |};
         Workflow.text := undefined |}
      Rejected (Token.startup 0 0 ∅)
    = Js.Ok (emit (Reply 42 Workflow.help_reply) (Token.startup 0 0 ∅),
             Returned).
Proof.
  destruct (spotifyUrlToUri_absent undefined (or_introl eq_refl))
    as (H1 & H2 & _ & H4).
  split_and!; [exact H1 | by apply H2 |].
  apply (H4 1000
           {| Workflow.chat_id := 42;
              Workflow.sender := {| user_id := 7; first_name := "Ada";
                                    username := None |};
              Workflow.text := undefined |} Rejected (Token.startup 0 0 ∅));
    reflexivity.
Defined.

(** ** Both limiters and the handlers *)

Section PipelineFacts.
Import Pipeline.

Lemma handle_message_windows (now : Z) (m : Workflow.message)
    (lookup : outcome track) (st : state) :
  windows (fst (Workflow.handle_message now m lookup st)) = windows st.
Proof.
  unfold Workflow.handle_message, Workflow.resolveTrack, Token.getSpotify,
    Token.refreshSpotifyToken.
  repeat case_match; simplify_eq; done.
Qed.

Lemma on_vote_windows (v : Workflow.vote) (st : state) :
  windows (fst (Workflow.on_vote v st)) = windows st.
Proof.
  destruct v as [now now' cb queued lookup | cb]; simpl Workflow.on_vote;
    unfold Workflow.on_accept, Workflow.on_decline, Workflow.close_vote,
      Workflow.addToSpotifyQueue, Workflow.resolveTrack, Token.getSpotify,
      Token.refreshSpotifyToken;
    repeat case_match; simplify_eq; done.
Qed.

(** The windows of the route limiter are touched by the message route
    only. *)
Lemma handle_windows (u : update) (st : state) :
  windows (handle u st)
  = if to_route u
    then snd (RateLimit.allow RateLimit.trackLimitConfig (update_key u)
                (update_time u) (windows st))
    else windows st.
Proof.
  destruct u as [now [| | url | code | |] m lookup | now v];
    simpl handle; simpl to_route; cbv iota.
  - done.
  - done.
  - unfold Commands.spotifylogin. by case_match.
  - unfold Token.spotifytoken. by case_match.
  - unfold Commands.id. by case_match.
  - unfold Workflow.on_message. simpl update_key. simpl update_time.
    destruct (RateLimit.allow _ _ _ _) as [[] w]; simpl snd; [| done].
    by rewrite handle_message_windows.
  - apply on_vote_windows.
Qed.

(** One call of the limiter keeps the invariant of every key. *)
Lemma allow_inv (cfg : RateLimit.config) (key k now p : Z)
    (w : gmap Z (list Z)) (A : list Z) :
  0 <= RateLimit.window cfg → p <= now →
  window_inv cfg key w A p →
  window_inv cfg key (snd (RateLimit.allow cfg k now w))
    (if fst (RateLimit.allow cfg k now w) && (k =? key)
     then A ++ [now] else A)
    (if k =? key then now else p).
Proof.
  intros Hw Hp [Hst HA]. unfold RateLimit.allow.
  destruct (decide (k = key)) as [-> | Hne].
  - rewrite Z.eqb_refl, andb_true_r, Hst, (prune_prune cfg) by lia.
    destruct (length _ <? RateLimit.limit cfg)%nat eqn:El; simpl fst; simpl snd;
      cbv iota.
    + split; [by rewrite lookup_insert_eq, (prune_snoc cfg Hw) |].
      intros s. rewrite (count_within_snoc cfg). apply Nat.ltb_lt in El.
      destruct ((s <=? now) && (now <=? s + RateLimit.window cfg)) eqn:E.
      * apply andb_true_iff in E as [E1 E2]. apply Z.leb_le in E1, E2.
        pose proof (count_within_prune cfg s now A ltac:(lia)). lia.
      * specialize (HA s). lia.
    + split; [by rewrite lookup_insert_eq | done].
  - assert ((k =? key) = false) as -> by by apply Z.eqb_neq.
    rewrite andb_false_r.
    split; [| done].
    destruct (length _ <? RateLimit.limit cfg)%nat; simpl snd;
      by rewrite lookup_insert_ne.
Qed.

(** The sliding-window bound, of the messages that reach the handler of the
    message route through both limiters. *)
Lemma receive_all_bound (defaults : RateLimit.config) (key : Z)
    (us : list update) :
  ∀ (b : bot) (A : list Z) (p last : Z),
    p <= last → monotone last us →
    window_inv RateLimit.trackLimitConfig key (windows (prog b)) A p →
    ∀ s, (RateLimit.count_within (5 * 60 * 1000) s
            (A ++ handled_times key us (fst (receive_all defaults us b)))
          <= 3)%nat.
Proof.
  induction us as [|u us IH]; intros b A p last Hp Hmono Hinv s.
  - simpl. rewrite app_nil_r. apply Hinv.
  - destruct Hmono as [Hlast Hmono]. simpl receive_all.
    destruct (receive defaults u b) as [b' v] eqn:Er.
    destruct (receive_all defaults us b') as [vs b''] eqn:Ers.
    assert (vs = fst (receive_all defaults us b')) as -> by by rewrite Ers.
    simpl fst. simpl handled_times. unfold receive in Er.
    destruct (RateLimit.allow defaults _ _ _) as [[] w1]; injection Er as <- <-.
    + pose proof (handle_windows u (prog b)) as Hw.
      destruct (to_route u) eqn:Hroute.
      * assert (is_handled (if route_allows u (prog b) then Handled
                            else Limited)
                = fst (RateLimit.allow RateLimit.trackLimitConfig
                         (update_key u) (update_time u) (windows (prog b))))
          as Hh.
        { destruct u as [now [| | url | code | |] m lookup | now v];
            try done. simpl.
          by destruct (RateLimit.allow _ _ _ _) as [[] ?]. }
        rewrite Hh. simpl andb.
        pose proof (allow_inv RateLimit.trackLimitConfig key (update_key u)
                      (update_time u) p (windows (prog b)) A
                      ltac:(done) ltac:(lia) Hinv) as Hinv'.
        rewrite <- Hw in Hinv'.
        destruct (fst (RateLimit.allow RateLimit.trackLimitConfig _ _ _)
                  && (update_key u =? key)) eqn:E.
        -- change (update_time u :: ?l) with ([update_time u] ++ l).
           rewrite app_assoc.
           eapply (IH _ _ _ (update_time u)); [| done | exact Hinv'].
           destruct (update_key u =? key); lia.
        -- eapply (IH _ _ _ (update_time u)); [| done | exact Hinv'].
           destruct (update_key u =? key); lia.
      * simpl andb. apply (IH _ A p (update_time u)); [lia | done |].
        simpl prog. by rewrite Hw.
    + simpl is_handled. rewrite andb_false_r. simpl andb.
      apply (IH _ A p (update_time u)); [lia | done | done].
Qed.

(** What the first limiter decides is all that stands between an update
    and its handler. *)
Lemma receive_cases (defaults : RateLimit.config) (u : update) (b : bot) :
  (snd (receive defaults u b) = Dropped
   ∧ prog (fst (receive defaults u b)) = prog b)
  ∨ (snd (receive defaults u b) ≠ Dropped
     ∧ prog (fst (receive defaults u b)) = handle u (prog b)
     ∧ snd (receive defaults u b)
       = if route_allows u (prog b) then Handled else Limited).
Proof.
  unfold receive. destruct (RateLimit.allow defaults _ _ _) as [[] w].
  - right. simpl. split; [by destruct (route_allows _ _) | done].
  - by left.
Qed.


End PipelineFacts.

Section ScenarioFacts.
Import Pipeline.

Lemma receive_all_cons (defaults : RateLimit.config) (u : update)
    (us : list update) (b : bot) :
  receive_all defaults (u :: us) b
  = (snd (receive defaults u b)
       :: fst (receive_all defaults us (fst (receive defaults u b))),
     snd (receive_all defaults us (fst (receive defaults u b)))).
Proof.
  simpl. destruct (receive defaults u b) as [b' v]. simpl.
  by destruct (receive_all defaults us b').
Qed.

Lemma allow_fst (cfg : RateLimit.config) (key now : Z)
    (w : gmap Z (list Z)) :
  fst (RateLimit.allow cfg key now w)
  = (length (RateLimit.prune (RateLimit.window cfg) now
               (default [] (w !! key))) <? RateLimit.limit cfg)%nat.
Proof. unfold RateLimit.allow. by destruct (_ <? _)%nat. Qed.

(** A message for the message route that the first limiter lets through. *)
Lemma receive_route (defaults : RateLimit.config) (now : Z)
    (m : Workflow.message) (lookup : outcome track) (b : bot) :
  snd (receive defaults (Incoming now NoCommand m lookup) b) ≠ Dropped →
  prog (fst (receive defaults (Incoming now NoCommand m lookup) b))
  = fst (Workflow.on_message now m lookup (prog b))
  ∧ snd (receive defaults (Incoming now NoCommand m lookup) b)
    = if (length (RateLimit.prune (5 * 60 * 1000) now
                    (default [] (windows (prog b)
                                 !! user_id (Workflow.sender m)))) <? 3)%nat
      then Handled else Limited.
Proof.
  intros Hnd.
  destruct (receive_cases defaults (Incoming now NoCommand m lookup) b)
    as [[Hd _] | (_ & Hp & Hv)]; [done |].
  split; [exact Hp |]. rewrite Hv. simpl route_allows.
  by rewrite allow_fst.
Qed.

(** Four requests of one user within five minutes that the first limiter
    lets through. *)
Lemma four_requests_received (defaults : RateLimit.config) (b0 : bot)
    (user t1 t2 t3 t4 : Z) (m1 m2 m3 m4 : Workflow.message)
    (l1 l2 l3 l4 : outcome track) :
  windows (prog b0) !! user = None →
  t1 <= t2 <= t3 → t3 <= t4 <= t1 + 5 * 60 * 1000 →
  Forall (λ m, user_id (Workflow.sender m) = user
               ∧ isVotingGroup (Workflow.chat_id m) = false
               ∧ is_Some (Parser.spotifyUrlToUri (Workflow.text m)))
    [m1; m2; m3; m4] →
  let r := receive_all defaults
             [Incoming t1 NoCommand m1 l1; Incoming t2 NoCommand m2 l2;
              Incoming t3 NoCommand m3 l3; Incoming t4 NoCommand m4 l4] b0 in
  let st1 := fst (Workflow.on_message t1 m1 l1 (prog b0)) in
  let st2 := fst (Workflow.on_message t2 m2 l2 st1) in
  let st3 := fst (Workflow.on_message t3 m3 l3 st2) in
  let st4 := fst (Workflow.on_message t4 m4 l4 st3) in
  Forall (λ v, v ≠ Dropped) (fst r) →
  fst r = [Handled; Handled; Handled; Limited]
  ∧ prog (snd r) = st4
  ∧ Workflow.count Workflow.is_getTrack (Workflow.new_calls (prog b0) st1)
    = 1%nat
  ∧ Workflow.count Workflow.is_getTrack (Workflow.new_calls st1 st2) = 1%nat
  ∧ Workflow.count Workflow.is_getTrack (Workflow.new_calls st2 st3) = 1%nat
  ∧ Workflow.new_calls st3 st4
    = [Reply (Workflow.chat_id m4) "Limit überschritten, bitte warten!"].
Proof.
  intros Hw0 Ht Ht' Hall r st1 st2 st3 st4 Hnd.
  destruct (four_requests_on_route (prog b0) user t1 t2 t3 t4 m1 m2 m3 m4
              l1 l2 l3 l4 Hw0 Ht Ht' Hall)
    as (G1 & G2 & G3 & G4 & W3 & W2 & W1).
  fold st1 st2 st3 st4 in G1, G2, G3, G4, W1, W2, W3.
  apply Forall_cons in Hall as [(Hu1 & _) Hall].
  apply Forall_cons in Hall as [(Hu2 & _) Hall].
  apply Forall_cons in Hall as [(Hu3 & _) Hall].
  apply Forall_cons in Hall as [(Hu4 & _) _].
  subst r. rewrite !receive_all_cons in Hnd |- *. simpl fst in Hnd |- *.
  simpl snd.
  apply Forall_cons in Hnd as [N1 Hnd].
  apply Forall_cons in Hnd as [N2 Hnd].
  apply Forall_cons in Hnd as [N3 Hnd].
  apply Forall_cons in Hnd as [N4 _].
  destruct (receive_route _ _ _ _ _ N1) as [P1 V1].
  rewrite Hu1, Hw0 in V1. simpl in V1.
  set (b1 := fst (receive defaults (Incoming t1 NoCommand m1 l1) b0)) in *.
  fold st1 in P1.
  destruct (receive_route _ _ _ _ _ N2) as [P2 V2].
  rewrite P1, Hu2, W1, lookup_insert_eq in V2. simpl default in V2.
  rewrite prune_all in V2 by (repeat constructor; simpl; lia).
  simpl in V2.
  set (b2 := fst (receive defaults (Incoming t2 NoCommand m2 l2) b1)) in *.
  rewrite P1 in P2. fold st2 in P2.
  destruct (receive_route _ _ _ _ _ N3) as [P3 V3].
  rewrite P2, Hu3, W2, lookup_insert_eq in V3. simpl default in V3.
  rewrite prune_all in V3 by (repeat constructor; simpl; lia).
  simpl in V3.
  set (b3 := fst (receive defaults (Incoming t3 NoCommand m3 l3) b2)) in *.
  rewrite P2 in P3. fold st3 in P3.
  destruct (receive_route _ _ _ _ _ N4) as [P4 V4].
  rewrite P3, Hu4, W3, lookup_insert_eq in V4. simpl default in V4.
  rewrite prune_all in V4 by (repeat constructor; simpl; lia).
  simpl in V4.
  rewrite P3 in P4. fold st4 in P4.
  rewrite V1, V2, V3, V4. by split_and!.
Qed.

End ScenarioFacts.

(** C3, as the claim states it, fails: before the limiter of the message
    route stands the limiter that [bot.use(rateLimit())] installs with the
    options of the package.  With that first limiter at one update per
    second, the setting that the package documents as its default, of four
    requests that a user sends 100 ms apart only the first reaches the
    lookup; the other three are dropped, without lookup and without a wait
    reply. *)
Lemma requests_in_one_second_are_dropped :
  let r := Pipeline.receive_all Pipeline.one_per_second
             [Pipeline.request_at 0; Pipeline.request_at 100;
              Pipeline.request_at 200; Pipeline.request_at 300]
             Pipeline.fresh in
  fst r = [Pipeline.Handled; Pipeline.Dropped; Pipeline.Dropped;
           Pipeline.Dropped]
  ∧ Workflow.count Workflow.is_getTrack (log (Pipeline.prog (snd r))) = 1%nat
  ∧ List.filter Workflow.is_reply (log (Pipeline.prog (snd r)))
    = [Reply 7 "Song von A, B wurde angefragt."].
Proof. split_and!; reflexivity. Qed.

(** C3, amended: under [trackLimitConfig] (five minutes, three requests)
    and for any sequence of updates with non-decreasing arrival times, of
    the messages of one user at most three reach the handler of the message
    route in any window of five minutes, whatever the first limiter lets
    through (and the limiter of the route by itself allows at most three
    calls of a user in any such window); a call that the limiter of the
    route denies leaves only the pruned window behind and is answered with
    the wait reply and nothing else; an update that the first limiter
    denies is dropped and leaves the program as it is; and of four requests
    of one user within five minutes that the first limiter lets through,
    the first three each reach the track lookup and the fourth gets the wait
    reply. *)
Theorem rate_limit_three_per_five_minutes :
  (∀ defaults (us : list Pipeline.update) (b : Pipeline.bot) (last user s : Z),
      windows (Pipeline.prog b) = ∅ →
      Pipeline.monotone last us →
      (RateLimit.count_within (5 * 60 * 1000) s
         (Pipeline.handled_times user us
            (fst (Pipeline.receive_all defaults us b)))
       <= 3)%nat)
  ∧ (∀ (calls : list (Z * Z)) (last user s : Z),
      RateLimit.monotone last calls →
      (RateLimit.count_within (5 * 60 * 1000) s
         (RateLimit.allowed_times user calls
            (fst (RateLimit.run RateLimit.trackLimitConfig calls ∅)))
       <= 3)%nat)
  ∧ (∀ now m lookup st,
      fst (RateLimit.allow RateLimit.trackLimitConfig
             (user_id (Workflow.sender m)) now (windows st)) = false →
      snd (RateLimit.allow RateLimit.trackLimitConfig
             (user_id (Workflow.sender m)) now (windows st))
      = <[user_id (Workflow.sender m) :=
            RateLimit.prune (5 * 60 * 1000) now
              (default [] (windows st !! user_id (Workflow.sender m)))]>
          (windows st)
      ∧ Workflow.new_calls st (fst (Workflow.on_message now m lookup st))
        = [Reply (Workflow.chat_id m) "Limit überschritten, bitte warten!"])
  ∧ (∀ defaults u b,
      snd (Pipeline.receive defaults u b) = Pipeline.Dropped →
      Pipeline.prog (fst (Pipeline.receive defaults u b)) = Pipeline.prog b)
  ∧ (∀ defaults b0 user t1 t2 t3 t4 m1 m2 m3 m4 l1 l2 l3 l4,
      windows (Pipeline.prog b0) !! user = None →
      t1 <= t2 <= t3 → t3 <= t4 <= t1 + 5 * 60 * 1000 →
      Forall (λ m, user_id (Workflow.sender m) = user
                   ∧ isVotingGroup (Workflow.chat_id m) = false
                   ∧ is_Some (Parser.spotifyUrlToUri (Workflow.text m)))
        [m1; m2; m3; m4] →
      let r := Pipeline.receive_all defaults
                 [Pipeline.Incoming t1 Pipeline.NoCommand m1 l1;
                  Pipeline.Incoming t2 Pipeline.NoCommand m2 l2;
                  Pipeline.Incoming t3 Pipeline.NoCommand m3 l3;
                  Pipeline.Incoming t4 Pipeline.NoCommand m4 l4] b0 in
      let st1 := fst (Workflow.on_message t1 m1 l1 (Pipeline.prog b0)) in
      let st2 := fst (Workflow.on_message t2 m2 l2 st1) in
      let st3 := fst (Workflow.on_message t3 m3 l3 st2) in
      let st4 := fst (Workflow.on_message t4 m4 l4 st3) in
      Forall (λ v, v ≠ Pipeline.Dropped) (fst r) →
      fst r = [Pipeline.Handled; Pipeline.Handled; Pipeline.Handled;
               Pipeline.Limited]
      ∧ Pipeline.prog (snd r) = st4
      ∧ Workflow.count Workflow.is_getTrack
          (Workflow.new_calls (Pipeline.prog b0) st1) = 1%nat
      ∧ Workflow.count Workflow.is_getTrack (Workflow.new_calls st1 st2) = 1%nat
      ∧ Workflow.count Workflow.is_getTrack (Workflow.new_calls st2 st3) = 1%nat
      ∧ Workflow.new_calls st3 st4
        = [Reply (Workflow.chat_id m4) "Limit überschritten, bitte warten!"]).
Proof.
  split_and!.
  - intros defaults us b last user s Hw Hmono.
    apply (receive_all_bound defaults user us b [] last last);
      [lia | done |].
    split; [by rewrite Hw | intros s'; unfold RateLimit.count_within; simpl; lia].
  - intros calls last user s Hmono.
    by apply (run_sliding_window RateLimit.trackLimitConfig ltac:(done)
                user last calls s).
  - intros now m lookup st Hden. unfold RateLimit.allow in Hden |- *.
    unfold Workflow.on_message, RateLimit.allow.
    destruct (length _ <? _)%nat eqn:E; [done |]. split; [done |].
    by apply new_calls_app.
  - intros defaults u b Hd.
    by destruct (receive_cases defaults u b) as [[_ H] | [H _]].
  - intros defaults b0 user t1 t2 t3 t4 m1 m2 m3 m4 l1 l2 l3 l4.
    apply four_requests_received.
Qed.

Lemma rate_limit_three_per_five_minutes_witness :
  (RateLimit.count_within (5 * 60 * 1000) 0
     (Pipeline.handled_times 7
        [Pipeline.request_at 0; Pipeline.request_at 2000;
         Pipeline.request_at 4000; Pipeline.request_at 6000]
        (fst (Pipeline.receive_all Pipeline.one_per_second
                [Pipeline.request_at 0; Pipeline.request_at 2000;
                 Pipeline.request_at 4000; Pipeline.request_at 6000]
                Pipeline.fresh)))
   <= 3)%nat
  ∧ Workflow.new_calls
      (with_windows (<[7 := [0; 1000; 2000]]> ∅) Sample.fresh)
      (fst (Workflow.on_message 3000 Sample.request (Fulfilled Sample.song)
              (with_windows (<[7 := [0; 1000; 2000]]> ∅) Sample.fresh)))
    = [Reply 7 "Limit überschritten, bitte warten!"]
  ∧ Pipeline.prog
      (fst (Pipeline.receive Pipeline.one_per_second (Pipeline.request_at 100)
              (fst (Pipeline.receive Pipeline.one_per_second
                      (Pipeline.request_at 0) Pipeline.fresh))))
    = Pipeline.prog
        (fst (Pipeline.receive Pipeline.one_per_second (Pipeline.request_at 0)
                Pipeline.fresh))
  ∧ fst (Pipeline.receive_all Pipeline.one_per_second
           [Pipeline.Incoming 0 Pipeline.NoCommand Sample.request Rejected;
            Pipeline.Incoming 2000 Pipeline.NoCommand Sample.request Rejected;
            Pipeline.Incoming 4000 Pipeline.NoCommand Sample.request Rejected;
            Pipeline.Incoming 6000 Pipeline.NoCommand Sample.request Rejected]
           Pipeline.fresh)
    = [Pipeline.Handled; Pipeline.Handled; Pipeline.Handled; Pipeline.Limited].
Proof.
  destruct rate_limit_three_per_five_minutes as (H1 & _ & H3 & H4 & H5).
  split_and!.
  - apply (H1 _ _ _ 0); [reflexivity |]. simpl. lia.
  - refine (proj2 (H3 3000 Sample.request (Fulfilled Sample.song)
                    (with_windows (<[7 := [0; 1000; 2000]]> ∅) Sample.fresh)
                    _)).
    reflexivity.
  - apply H4. reflexivity.
  - refine (proj1 (H5 Pipeline.one_per_second Pipeline.fresh 7 0 2000 4000 6000
                     Sample.request Sample.request Sample.request Sample.request
                     Rejected Rejected Rejected Rejected _ _ _ _ _)).
    + reflexivity.
    + lia.
    + lia.
    + repeat constructor; by eexists.
    + repeat constructor; discriminate.
Defined.

(** ** Votes and the first limiter *)




(** ** Start-up without a complete pair *)

Lemma run_expires (es : list Bot.event) (st : state) :
  List.filter Bot.is_refreshed es = [] →
  spotifyTokenExpires (sp (Bot.run es st)) = spotifyTokenExpires (sp st).
Proof.
  revert st. induction es as [|e es IH]; intros st Hn; [done |].
  simpl in Hn |- *. destruct (Bot.is_refreshed e) eqn:He; [done |].
  by rewrite (IH _ Hn), step_expires.
Qed.

(** X5: started from a store that lacks one of the two tokens, the bot
    sends nothing at start-up and holds no access token; after any run in
    which no refresh is fulfilled, a [getSpotify] at or after the start
    time sends a refresh request all the same, for whatever refresh token
    the store had, and hands out the API object with whatever access token
    the store had. *)
Theorem startup_without_cached_pair (t0 t1 now : Z)
    (disk : gmap string string) (es : list Bot.event) :
  disk !! "spotify_refresh_token" = None
  ∨ disk !! "spotify_access_token" = None →
  List.filter Bot.is_refreshed es = [] →
  t0 <= now →
  let st0 := Token.startup t0 t1 disk in
  let st := Bot.run es st0 in
  log st0 = []
  ∧ api_access (sp st0) = None
  ∧ Workflow.new_calls st (Token.getSpotify now true st)
    = [RefreshAccessToken (disk !! "spotify_refresh_token")]
  ∧ api_access (sp (Token.getSpotify now true st))
    = disk !! "spotify_access_token".
Proof.
  intros Hd Hn Ht st0 st.
  assert (st0 = {| sp := {| api_access := None; api_refresh := None;
                            spotifyRefreshToken := disk !! "spotify_refresh_token";
                            spotifyAccessToken := disk !! "spotify_access_token";
                            spotifyTokenExpires := t0 |};
                   storage := disk; windows := ∅; log := [] |}) as E0.
  { subst st0. unfold Token.startup.
    by destruct Hd as [-> | ->];
      [| destruct (disk !! "spotify_refresh_token")]. }
  destruct (run_run_ok es st0) as (l & _ & Hr & Ha & _).
  pose proof (run_expires es st0 Hn) as He.
  fold st in Hr, Ha, He. rewrite E0 in Hr, Ha, He. simpl in Hr, Ha, He.
  split_and!; [by rewrite E0 | by rewrite E0 | |];
    unfold Token.getSpotify, Token.refreshSpotifyToken;
    rewrite He, Hr, Ha, (proj2 (Z.leb_le _ _) Ht); cbn [orb]; [| done].
  by apply new_calls_app.
Qed.

Lemma startup_without_cached_pair_witness :
  Workflow.new_calls
    (Bot.run [Bot.Message 50 Sample.request Rejected; Bot.RefreshFailed;
              Bot.Authorized 117441870
                {| Token.access_token := "A"; Token.refresh_token := "R";
                   Token.expires_in := 3600 |}]
       (Token.startup 0 0 (<["spotify_refresh_token" := "R0"]> ∅)))
    (Token.getSpotify 7000 true
       (Bot.run [Bot.Message 50 Sample.request Rejected; Bot.RefreshFailed;
                 Bot.Authorized 117441870
                   {| Token.access_token := "A"; Token.refresh_token := "R";
                      Token.expires_in := 3600 |}]
          (Token.startup 0 0 (<["spotify_refresh_token" := "R0"]> ∅))))
  = [RefreshAccessToken (Some "R0")].
Proof.
  refine (proj1 (proj2 (proj2
            (startup_without_cached_pair 0 0 7000
               (<["spotify_refresh_token" := "R0"]> ∅) _ _ _ _))));
    [by right | reflexivity | lia].
Defined.

(** ** A message without a link *)

(** X10: when a message whose text has no track URL reaches the handler of
    the message route in a chat other than the voting group, the handler
    throws nothing, answers with the format-help reply and does nothing
    else: Spotify is not contacted at all, also when the token has expired;
    and a message that triggers no command and that both limiters let
    through does reach that handler, so that the help reply is the one call
    that the update causes. *)
Theorem message_without_link (now : Z) (m : Workflow.message)
    (lookup : outcome track) (st : state) :
  isVotingGroup (Workflow.chat_id m) = false →
  (∀ s, Workflow.text m = str s → ¬ UrlSpec.contains_url s) →
  Js.handle_message now m lookup st
  = Js.Ok (emit (Reply (Workflow.chat_id m)
                   "Keine gültige Spotify-URL. Sende /help für Hilfe.") st,
           Returned)
  ∧ Workflow.handle_message now m lookup st
    = (emit (Reply (Workflow.chat_id m)
               "Keine gültige Spotify-URL. Sende /help für Hilfe.") st,
       Returned)
  ∧ ∀ defaults b,
      Pipeline.prog b = st →
      snd (Pipeline.receive defaults
             (Pipeline.Incoming now Pipeline.NoCommand m lookup) b)
      = Pipeline.Handled →
      Workflow.new_calls st
        (Pipeline.prog
           (fst (Pipeline.receive defaults
                   (Pipeline.Incoming now Pipeline.NoCommand m lookup) b)))
      = [Reply (Workflow.chat_id m)
           "Keine gültige Spotify-URL. Sende /help für Hilfe."].
Proof.
  intros Hv Hn.
  assert (∀ st', Workflow.handle_message now m lookup st'
                 = (emit (Reply (Workflow.chat_id m)
                            "Keine gültige Spotify-URL. Sende /help für Hilfe.")
                      st', Returned)) as Hh.
  { intros st'. unfold Workflow.handle_message. rewrite Hv.
    destruct (Parser.spotifyUrlToUri (Workflow.text m)) as [u|] eqn:Hu; [| done].
    destruct (spotifyUrlToUri_Some _ _ Hu)
      as (s & pre & suf & id & Hs & -> & Hat & _).
    destruct (Hn _ Hs). by exists pre, suf, id. }
  split_and!; [by rewrite Js_handle_message_returns, Hh | apply Hh |].
  intros defaults b <- Hhandled.
  destruct (receive_cases defaults
              (Pipeline.Incoming now Pipeline.NoCommand m lookup) b)
    as [[Hd _] | (_ & Hp & Hverdict)]; [congruence |].
  rewrite Hp. rewrite Hhandled in Hverdict. simpl in Hverdict |- *.
  unfold Workflow.on_message.
  destruct (RateLimit.allow RateLimit.trackLimitConfig _ _ _) as [[] w];
    [| done].
  rewrite Hh. by apply new_calls_app.
Qed.

Lemma message_without_link_witness :
  Workflow.new_calls Sample.ready
    (Pipeline.prog
       (fst (Pipeline.receive Pipeline.one_per_second
               (Pipeline.Incoming 4000000 Pipeline.NoCommand
                  {| Workflow.chat_id := 7; Workflow.sender := Sample.ada;
                     Workflow.text := str "https://open.spotify.com/album/abc" |}
                  Rejected)
               Taps.ready)))
  = [Reply 7 "Keine gültige Spotify-URL. Sende /help für Hilfe."].
Proof.
  refine (proj2 (proj2 (message_without_link 4000000
                          {| Workflow.chat_id := 7; Workflow.sender := Sample.ada;
                             Workflow.text :=
                               str "https://open.spotify.com/album/abc" |}
                          Rejected Sample.ready _ _))
            Pipeline.one_per_second Taps.ready _ _).
  - reflexivity.
  - intros s [= <-]. apply not_contains_url. reflexivity.
  - reflexivity.
  - reflexivity.
Defined.
